(** * kazel/generator.go: k8s codegen tag index

    A shallow embedding of [extractTags], [findGeneratorTags], [flattened]
    and [walkGenerated] from [src/kazel/generator.go], with the parts of the
    Go standard library they call ([regexp], [strings], [path/filepath],
    [sort], [io/ioutil], [os]) modelled next to them.

    Go [string] and [[]byte] values are byte sequences: both are [string]
    here (a list of 8-bit [ascii]).  Go maps are [gmap]s. *)

From Stdlib Require Import Ascii.
From Stdlib Require String.
From stdpp Require Import gmap strings list fin_maps sorting.

(** ** package strings *)

Module strings.

(** [strings.HasSuffix(s, suffix)] *)
Fixpoint HasPrefix (s prefix : string) : bool :=
  match prefix, s with
  | EmptyString, _ => true
  | String p prefix', String c s' => Ascii.eqb c p && HasPrefix s' prefix'
  | String _ _, EmptyString => false
  end.

Definition HasSuffix (s suffix : string) : bool :=
  HasPrefix (String.rev s) (String.rev suffix).

(** [strings.IndexByte(s, c) >= 0] *)
Fixpoint ContainsByte (s : string) (c : ascii) : bool :=
  match s with
  | EmptyString => false
  | String a s' => Ascii.eqb c a || ContainsByte s' c
  end.

(** [strings.Split(s, sep)] for a one-byte separator: the [n+1] pieces
    around the [n] occurrences of [sep], in order; never empty. *)
Fixpoint Split (s : string) (sep : ascii) : list string :=
  match s with
  | EmptyString => [EmptyString]
  | String c s' =>
      if Ascii.eqb c sep then EmptyString :: Split s' sep
      else match Split s' sep with
           | piece :: pieces => String c piece :: pieces
           | [] => [String c EmptyString]
           end
  end.

(** [strings.Join(pieces, sep)], the inverse of [Split]. *)
Fixpoint Join (pieces : list string) (sep : ascii) : string :=
  match pieces with
  | [] => EmptyString
  | [piece] => piece
  | piece :: pieces' => piece +:+ String sep (Join pieces' sep)
  end.

End strings.

(** ** package regexp

    The fragment of RE2 syntax that [genTagRe] is written in: literal
    bytes, character classes, greedy repetition of a class, concatenation
    and numbered capture groups.  Matching is leftmost-first (the match a
    backtracking search would find first), as [regexp] guarantees.  All
    literals of [genTagRe] are ASCII and its classes only single out ASCII
    bytes, so matching bytes equals matching the decoded runes. *)

Module regexp.

Inductive Regexp :=
| Class (cls : ascii → bool)            (* one byte of the class *)
| Star (cls : ascii → bool)             (* cls*, greedy *)
| Concat (r1 r2 : Regexp)
| Capture (i : nat) (r : Regexp).       (* ( r ), group number i *)

(** [x+] is [xx*]. *)
Definition Plus (cls : ascii → bool) : Regexp := Concat (Class cls) (Star cls).

(** A literal byte, and a literal string followed by [r]. *)
Definition Lit (c : ascii) : Regexp := Class (Ascii.eqb c).
Fixpoint LitThen (s : string) (r : Regexp) : Regexp :=
  match s with
  | EmptyString => r
  | String c s' => Concat (Lit c) (LitThen s' r)
  end.

(** [\s] is [[\t\n\f\r ]] and [\S] its complement. *)
Definition isSpace (c : ascii) : bool :=
  Ascii.eqb c "009"%char || Ascii.eqb c "010"%char || Ascii.eqb c "012"%char
  || Ascii.eqb c "013"%char || Ascii.eqb c " "%char.
Definition notSpace (c : ascii) : bool := negb (isSpace c).
(** [[^\s=]] *)
Definition notSpaceOrEq (c : ascii) : bool :=
  negb (isSpace c || Ascii.eqb c "="%char).

(** Capture registers: group number and the text it matched, latest
    first. *)
Definition caps := list (nat * string).

Fixpoint group (i : nat) (c : caps) : string :=
  match c with
  | [] => EmptyString
  | (j, text) :: c' => if Nat.eqb i j then text else group i c'
  end.

(** The part of [s] consumed on the way to its suffix [rest]. *)
Fixpoint take (n : nat) (s : string) : string :=
  match n, s with
  | S n', String c s' => String c (take n' s')
  | _, _ => EmptyString
  end.
Definition consumed (s rest : string) : string :=
  take (String.length s - String.length rest) s.

(** Backtracking matcher in continuation-passing style: [rmatch r k s c]
    matches [r] at the start of [s] and hands the rest of the input to
    [k]; when [k] fails, the next alternative in priority order (a
    shorter repetition) is tried. *)
Fixpoint rmatch {R} (r : Regexp) (k : string → caps → option R)
    (s : string) (c : caps) : option R :=
  match r with
  | Class cls =>
      match s with
      | String a s' => if cls a then k s' c else None
      | EmptyString => None
      end
  | Star cls =>
      (fix star (s : string) : option R :=
         match s with
         | String a s' =>
             if cls a then
               match star s' with
               | Some res => Some res
               | None => k s c
               end
             else k s c
         | EmptyString => k s c
         end) s
  | Concat r1 r2 => rmatch r1 (fun s' c' => rmatch r2 k s' c') s c
  | Capture i r' =>
      rmatch r' (fun s' c' => k s' ((i, consumed s s') :: c')) s c
  end.

(** Number of capture groups. *)
Fixpoint NumSubexp (r : Regexp) : nat :=
  match r with
  | Class _ | Star _ => 0
  | Concat r1 r2 => Nat.max (NumSubexp r1) (NumSubexp r2)
  | Capture i r' => Nat.max i (NumSubexp r')
  end.

(** A submatch as [FindSubmatch] returns it: the text of the whole match
    followed by the text of each group; paired with the unread input. *)
Definition matchAt (r : Regexp) (s : string) : option (list string * string) :=
  rmatch r
    (fun rest c =>
       Some (consumed s rest :: ((fun i => group i c) <$> seq 1 (NumSubexp r)),
             rest))
    s [].

(** Leftmost match: the first start position with a match. *)
Fixpoint search (r : Regexp) (s : string) : option (list string * string) :=
  match matchAt r s with
  | Some res => Some res
  | None =>
      match s with
      | String _ s' => search r s'
      | EmptyString => None
      end
  end.

(** The loop of [FindAllSubmatch(b, -1)] for a regexp that never matches
    the empty string: each search resumes where the previous match
    ended.  [fuel] bounds the number of matches. *)
Fixpoint allMatches (fuel : nat) (r : Regexp) (s : string) : list (list string) :=
  match fuel with
  | 0 => []
  | S fuel' =>
      match search r s with
      | None => []
      | Some (m, rest) => m :: allMatches fuel' r rest
      end
  end.

Definition FindAllSubmatch (r : Regexp) (b : string) : list (list string) :=
  allMatches (S (String.length b)) r b.

End regexp.

(** ** Errors and package os

    A Go [error] value is [option error] here, [None] being [nil].  The
    errors of this program are [filepath.SkipDir] and the errors of the
    operating system, which carry an error number. *)

Inductive error :=
| SkipDir                       (* filepath.SkipDir *)
| PathError (errno : nat).      (* *os.PathError wrapping a syscall.Errno *)

Global Instance error_eq_dec : EqDecision error.
Proof. solve_decision. Defined.

Module os.

Definition ENOENT : nat := 2.
Definition EACCES : nat := 13.
Definition EISDIR : nat := 21.

(** [os.IsNotExist(err)] *)
Definition IsNotExist (err : option error) : bool :=
  match err with
  | Some (PathError errno) => Nat.eqb errno ENOENT
  | _ => false
  end.

End os.

(** ** The file system

    What [os.Lstat], [Readdirnames] and [ioutil.ReadFile] find under a
    path: an entry that cannot be stat'ed, a non-directory with the outcome
    of reading it, or a directory with the outcome of listing it.  The
    entries of a directory are in the order [readDirNames] returns them
    (sorted by name). *)

#[warnings="-register-all"]
Inductive fsnode :=
| NoStat (errno : nat)
| File (contents : nat + string)
| Directory (readdirErr : option nat) (entries : list (string * fsnode)).

Definition IsDir (info : fsnode) : bool :=
  match info with Directory _ _ => true | _ => false end.

Module ioutil.

(** [ioutil.ReadFile] on the entry found at the path read. *)
Definition ReadFile (n : fsnode) : nat + string :=
  match n with
  | NoStat errno => inl errno
  | File contents => contents
  | Directory _ _ => inl os.EISDIR
  end.

End ioutil.

(** ** package path/filepath *)

Module filepath.

Fixpoint hasSlash (s : string) : bool :=
  match s with
  | EmptyString => false
  | String c s' => Ascii.eqb c "/"%char || hasSlash s'
  end.

(** [path[:i+1]] for the last separator [i]. *)
Fixpoint dirPart (path : string) : string :=
  match path with
  | EmptyString => EmptyString
  | String c path' =>
      if Ascii.eqb c "/"%char || hasSlash path' then String c (dirPart path')
      else EmptyString
  end.

Fixpoint dropLast (s : string) : string :=
  match s with
  | EmptyString => EmptyString
  | String c EmptyString => EmptyString
  | String c s' => String c (dropLast s')
  end.

(** Paths that [Walk] builds from a root in [Clean] form: the root
    itself is [.] or [/] or has no trailing separator. *)
Definition cleanDir (dir : string) : bool :=
  match dir with
  | EmptyString => false
  | String "/"%char EmptyString => true
  | _ => negb (strings.HasSuffix dir "/")
  end.

(** [filepath.Dir(path)]: everything before the last separator, cleaned;
    [Clean] here only has the trailing separator to remove. *)
Definition Dir (path : string) : string :=
  match dirPart path with
  | EmptyString => "."
  | String "/"%char EmptyString => "/"
  | d => dropLast d
  end.

(** [filepath.Join(dir, name)] for a directory in [Clean] form and the
    name of one of its entries. *)
Definition Join (dir name : string) : string :=
  if String.eqb dir "." then name
  else if strings.HasSuffix dir "/" then dir +:+ name
  else dir +:+ String "/"%char name.

Section Walk.
Context {St : Type}.

(** [filepath.WalkFunc], with the state the closure updates. *)
Definition WalkFunc : Type :=
  string → fsnode → option error → St → option error * St.

Variable walkFn : WalkFunc.

(** [filepath.walk]: the directory is listed, [walkFn] is called on
    it, then each entry is stat'ed and walked in turn.  [SkipDir] from
    a directory skips that directory; from anything else it ends the
    listing of the parent. *)
Fixpoint walk (path : string) (info : fsnode) (st : St) : option error * St :=
  match info with
  | Directory readdirErr entries =>
      let '(err1, st1) :=
        walkFn path info (PathError <$> readdirErr) st in
      match readdirErr, err1 with
      | None, None =>
          (fix walkEntries (entries : list (string * fsnode)) (st : St)
             : option error * St :=
             match entries with
             | [] => (None, st)
             | (name, fileInfo) :: entries' =>
                 let filename := Join path name in
                 match fileInfo with
                 | NoStat errno =>
                     match walkFn filename fileInfo (Some (PathError errno)) st with
                     | (Some err, st') =>
                         if decide (err = SkipDir) then walkEntries entries' st'
                         else (Some err, st')
                     | (None, st') => walkEntries entries' st'
                     end
                 | _ =>
                     match walk filename fileInfo st with
                     | (Some err, st') =>
                         if negb (IsDir fileInfo) || negb (bool_decide (err = SkipDir))
                         then (Some err, st')
                         else walkEntries entries' st'
                     | (None, st') => walkEntries entries' st'
                     end
                 end
             end) entries st1
      | _, _ => (err1, st1)
      end
  | _ => walkFn path info None st
  end.

(** The loop over the entries of the directory [path], on its own. *)
Fixpoint walkEntries (path : string) (entries : list (string * fsnode))
    (st : St) : option error * St :=
  match entries with
  | [] => (None, st)
  | (name, fileInfo) :: entries' =>
      let filename := Join path name in
      match fileInfo with
      | NoStat errno =>
          match walkFn filename fileInfo (Some (PathError errno)) st with
          | (Some err, st') =>
              if decide (err = SkipDir) then walkEntries path entries' st'
              else (Some err, st')
          | (None, st') => walkEntries path entries' st'
          end
      | _ =>
          match walk filename fileInfo st with
          | (Some err, st') =>
              if negb (IsDir fileInfo) || negb (bool_decide (err = SkipDir))
              then (Some err, st')
              else walkEntries path entries' st'
          | (None, st') => walkEntries path entries' st'
          end
      end
  end.

(** [filepath.Walk(root, walkFn)] *)
Definition Walk (root : string) (info : fsnode) (st : St) : option error * St :=
  let '(err, st') :=
    match info with
    | NoStat errno => walkFn root info (Some (PathError errno)) st
    | _ => walk root info st
    end in
  (if bool_decide (err = Some SkipDir) then None else err, st').

End Walk.

End filepath.

(** ** generator.go *)

Import regexp.

(** [genTagRe = regexp.MustCompile(`//\s*\+k8s:([^\s=]+)(?:=(\S+))\s*\n`)] *)
Definition genTagRe : Regexp :=
  LitThen "//"
    (Concat (Star isSpace)
       (LitThen "+k8s:"
          (Concat (Capture 1 (Plus notSpaceOrEq))
             (Concat (Concat (Lit "="%char) (Capture 2 (Plus notSpace)))
                (Concat (Star isSpace) (Lit "010"%char)))))).

(** [{tagName: {value: {pkgs}}}] *)
Abbreviation generatorTagsValuesPkgsMap :=
  (gmap string (gmap string (gmap string bool))).

(** One iteration of the loop over [matches] in [extractTags]. *)
Definition extractTags_step (requestedTags : gmap string bool)
    (tags : gmap string (list string)) (m : list string)
    : gmap string (list string) :=
  match m with
  | _ :: tag :: values :: _ =>          (* len(m) >= 3 *)
      match requestedTags !! tag with
      | None => tags                    (* continue *)
      | Some _ =>
          <[tag := default [] (tags !! tag) ++ strings.Split values ","%char]> tags
      end
  | _ => tags
  end.

Definition extractTags (b : string) (requestedTags : gmap string bool)
    : gmap string (list string) :=
  foldl (extractTags_step requestedTags) ∅ (FindAllSubmatch genTagRe b).

(** Modelled from the spec: the [Vendorer] and its configuration are
    declared outside [generator.go]; these are the fields the file reads.
    A compiled skip pattern is represented by its [MatchString]. *)
Record Cfg := {
  GoPrefix : string;
  K8sCodegenBzlFile : string;
  K8sCodegenBoilerplateFile : string;
  K8sCodegenTags : list string;
}.

Record Vendorer := {
  cfg : Cfg;
  dryRun : bool;
  skippedK8sCodegenPaths : list (string → bool);
}.

(** Modelled from the spec: [build.File], [addCommentBefore] and [varExpr]
    are declared outside [generator.go].  The document is a header comment
    block and a sequence of declarations, each binding a name to a value
    and carrying an explanatory comment. *)
Inductive value :=
| StringValue (s : string)
| StringsValue (l : list string)
| TagsValuesPkgsValue (m : gmap string (gmap string (list string))).

Record Expr := { exprName : string; exprComment : string; exprValue : value }.

Module build.
Record File := { Path : string; CommentsBefore : list string; Stmt : list Expr }.
End build.

Definition addCommentBefore (f : build.File) (comment : string) : build.File :=
  {| build.Path := build.Path f;
     build.CommentsBefore := build.CommentsBefore f ++ [comment];
     build.Stmt := build.Stmt f |}.

Definition varExpr (name comment : string) (v : value) : Expr :=
  {| exprName := name; exprComment := comment; exprValue := v |}.

(** What the program does to the file system, in order. *)
Inductive event :=
| ReadFileEv (path : string)
| StatEv (path : string)
| WriteFileEv (path : string) (f : build.File) (boilerplate : string)
    (fileExists dryRun : bool).

(** The variables the closure passed to [filepath.Walk] updates, and the
    log of its reads. *)
Record walkState := {
  tagsValuesPkgs : generatorTagsValuesPkgsMap;
  trace : list event;
}.

(** [tagsValuesPkgs[tag][v][pkg] = true], creating [tagsValuesPkgs[tag][v]]
    when it is not present. *)
Definition addPkg (tag v pkg : string) (m : generatorTagsValuesPkgsMap)
    : generatorTagsValuesPkgsMap :=
  let subMap := default ∅ (m !! tag) in
  let subSet := default ∅ (subMap !! v) in
  <[tag := <[v := <[pkg := true]> subSet]> subMap]> m.

(** The body of the loop over [extractTags(b, requestedTags)] for one
    [tag, values]. *)
Definition addValues (pkg : string) (m : generatorTagsValuesPkgsMap)
    (tv : string * list string) : generatorTagsValuesPkgsMap :=
  let '(tag, values) := tv in
  let m1 := match m !! tag with
            | None => <[tag := ∅]> m
            | Some _ => m
            end in
  foldl (fun m v => addPkg tag v pkg m) m1 values.

(** The loop over the map [extractTags] returns, in the order
    [map_to_list] enumerates it ([addTags_order] below: any other order of
    iteration gives the same index). *)
Definition addTags (pkg : string) (tags : gmap string (list string))
    (m : generatorTagsValuesPkgsMap) : generatorTagsValuesPkgsMap :=
  foldl (addValues pkg) m (map_to_list tags).

(** The closure passed to [filepath.Walk] in [findGeneratorTags]. *)
Definition walkFn (v : Vendorer) (requestedTags : gmap string bool)
    (path : string) (info : fsnode) (err : option error) (st : walkState)
    : option error * walkState :=
  match err with
  | Some e => (Some e, st)
  | None =>
      let pkg := filepath.Dir path in
      if existsb (fun r => r pkg) (skippedK8sCodegenPaths v) then (Some SkipDir, st)
      else if negb (strings.HasSuffix path ".go") || strings.HasSuffix path "_test.go"
      then (None, st)
      else
        let tr := trace st ++ [ReadFileEv path] in
        match ioutil.ReadFile info with
        | inl errno =>
            (Some (PathError errno), {| tagsValuesPkgs := tagsValuesPkgs st; trace := tr |})
        | inr b =>
            (None,
             {| tagsValuesPkgs :=
                  addTags pkg (extractTags b requestedTags) (tagsValuesPkgs st);
                trace := tr |})
        end
  end.

(** The walk of [findGeneratorTags] with everything it leaves behind: the
    error of [filepath.Walk], the index built so far and the reads made. *)
Definition runWalk (v : Vendorer) (root : string) (requestedTags : gmap string bool)
    (fs : fsnode) : option error * walkState :=
  filepath.Walk (walkFn v requestedTags) root fs
    {| tagsValuesPkgs := ∅; trace := [] |}.

(** [findGeneratorTags]: the returned pair; a [nil] map is [None]. *)
Definition findGeneratorTags (v : Vendorer) (root : string)
    (requestedTags : gmap string bool) (fs : fsnode)
    : option generatorTagsValuesPkgsMap * option error :=
  match runWalk v root requestedTags fs with
  | (Some walkErr, _) => (None, Some walkErr)
  | (None, st) => (Some (tagsValuesPkgs st), None)
  end.

(** [sort.Strings]: the increasing arrangement in byte order. *)
Definition sort_Strings (l : list string) : list string :=
  merge_sort String.le l.

(** The keys of a set, in the order [range] happens to visit them. *)
Definition rangeKeys (subSet : gmap string bool) : list string :=
  (map_to_list subSet).*1.

(** [flattened[tag][k]] after the inner loop and [sort.Strings]: the key is
    only created by the first [append]. *)
Definition flattenedLeaf (subSet : gmap string bool) : option (list string) :=
  match rangeKeys subSet with
  | [] => None
  | pkgs => Some (sort_Strings pkgs)
  end.

Definition flattened (m : generatorTagsValuesPkgsMap)
    : gmap string (gmap string (list string)) :=
  (fun subMap : gmap string (gmap string bool) => omap flattenedLeaf subMap) <$> m.

(** The file system as [walkGenerated] sees it: the tree under [.], and
    the outcome of [ioutil.ReadFile] and of [os.Stat] on a path. *)
Record world := {
  tree : fsnode;
  readFile : string → nat + string;
  stat : string → option nat;
}.

Section walkGenerated.

(** [writeFile] is declared outside [generator.go]: it is a parameter. *)
Variable writeFile :
  string → build.File → string → bool → bool → bool * option error.

Definition header : list string :=
  [ "#################################################";
    "# # # # # # # # # # # # # # # # # # # # # # # # #";
    "This file is autogenerated by kazel. DO NOT EDIT.";
    "# # # # # # # # # # # # # # # # # # # # # # # # #";
    "#################################################";
    "" ].

Definition document (v : Vendorer) (m : generatorTagsValuesPkgsMap) : build.File :=
  let f := {| build.Path := K8sCodegenBzlFile (cfg v);
              build.CommentsBefore := []; build.Stmt := [] |} in
  let f := foldl addCommentBefore f header in
  {| build.Path := build.Path f;
     build.CommentsBefore := build.CommentsBefore f;
     build.Stmt :=
       build.Stmt f
       ++ [varExpr "go_prefix" "The go prefix passed to kazel"
             (StringValue (GoPrefix (cfg v)))]
       ++ [varExpr "kazel_configured_tags"
             "The list of codegen tags kazel is configured to find"
             (StringsValue (K8sCodegenTags (cfg v)))]
       ++ [varExpr "tags_values_pkgs"
             "tags_values_pkgs is a dictionary mapping {k8s build tag: {tag value: [pkgs including that tag:value]}}"
             (TagsValuesPkgsValue (flattened m))] |}.

(** [walkGenerated]: the returned pair and what was done on the way. *)
Definition walkGenerated (v : Vendorer) (w : world)
    : (bool * option error) * list event :=
  if String.eqb (K8sCodegenBzlFile (cfg v)) "" then ((false, None), [])
  else
    let requestedTags :=
      foldl (fun m tag => <[tag := true]> m) ∅ (K8sCodegenTags (cfg v)) in
    let tr := trace (runWalk v "." requestedTags (tree w)).2 in
    match findGeneratorTags v "." requestedTags (tree w) with
    | (_, Some err) => ((false, Some err), tr)
    | (tagsValuesPkgs, None) =>
        let f := document v (default ∅ tagsValuesPkgs) in
        let boilerplateFile := K8sCodegenBoilerplateFile (cfg v) in
        let read :=
          if String.eqb boilerplateFile "" then (inr EmptyString, tr)
          else (readFile w boilerplateFile, tr ++ [ReadFileEv boilerplateFile]) in
        match read with
        | (inl errno, tr) => ((false, Some (PathError errno)), tr)
        | (inr boilerplate, tr) =>
            let err := PathError <$> stat w (build.Path f) in
            let tr := tr ++ [StatEv (build.Path f)] in
            if bool_decide (err ≠ None) && negb (os.IsNotExist err)
            then ((false, err), tr)
            else
              let fileExists := negb (os.IsNotExist err) in
              (writeFile (build.Path f) f boilerplate fileExists (dryRun v),
               tr ++ [WriteFileEv (build.Path f) f boilerplate fileExists (dryRun v)])
        end
    end.

End walkGenerated.

(** ** Vocabulary of the statements *)

(** All bytes of [w] are in the class, and [s] does not continue it. *)
Fixpoint allBytes (cls : ascii → bool) (w : string) : bool :=
  match w with
  | EmptyString => true
  | String a w' => cls a && allBytes cls w'
  end.

Definition stopsAt (cls : ascii → bool) (s : string) : bool :=
  match s with
  | EmptyString => true
  | String a _ => negb (cls a)
  end.

(** The least number of bytes a match of [r] consumes. *)
Fixpoint minWidth (r : Regexp) : nat :=
  match r with
  | Class _ => 1
  | Star _ => 0
  | Concat r1 r2 => minWidth r1 + minWidth r2
  | Capture _ r' => minWidth r'
  end.

Definition nl : string := String "010"%char EmptyString.

(** The comment line [// +k8s:<tag>=<values>] with its newline. *)
Definition annotation (tag values : string) : string :=
  "// +k8s:" +:+ tag +:+ "=" +:+ values +:+ nl.

(** A file made of annotation lines only. *)
Fixpoint annotations (lines : list (string * string)) : string :=
  match lines with
  | [] => ""
  | (tag, values) :: lines' => annotation tag values +:+ annotations lines'
  end.

Definition wfLine (line : string * string) : bool :=
  negb (String.eqb line.1 "") && allBytes notSpaceOrEq line.1
  && negb (String.eqb line.2 "") && allBytes notSpace line.2.

(** An annotation given by its tag and its sub-values. *)
Definition payload (pieces : list string) : string := strings.Join pieces ","%char.

Definition wfAnnotation (line : string * list string) : bool :=
  wfLine (line.1, payload line.2)
  && forallb (fun piece => negb (strings.ContainsByte piece ","%char)) line.2.

Definition valuesInOrder (t : string) (file : list (string * list string))
    : list string :=
  flat_map (fun line => if decide (line.1 = t) then line.2 else []) file.

(** The values of tag [t] contributed by a list of matches, in order. *)
Definition valuesOf (t : string) (ms : list (list string)) : list string :=
  flat_map (fun m =>
    match m with
    | _ :: tag :: values :: _ =>
        if decide (tag = t) then strings.Split values ","%char else []
    | _ => []
    end) ms.

(** Some skip pattern matches [pkg]. *)
Definition skipped (v : Vendorer) (pkg : string) : bool :=
  existsb (fun r => r pkg) (skippedK8sCodegenPaths v).

(** A read event of a non-test Go source. *)
Definition goRead (ev : event) : Prop :=
  ∃ path, ev = ReadFileEv path
          ∧ strings.HasSuffix path ".go" = true
          ∧ strings.HasSuffix path "_test.go" = false.

(** [os.Lstat] on an entry, then the call of [walkFn] or [walk] that
    [filepath.Walk] and the loop of [filepath.walk] make for it. *)
Definition lstatWalk {St : Type} (walkFn : @filepath.WalkFunc St)
    (filename : string) (fileInfo : fsnode) (st : St) : option error * St :=
  match fileInfo with
  | NoStat errno => walkFn filename fileInfo (Some (PathError errno)) st
  | _ => filepath.walk walkFn filename fileInfo st
  end.

(** [tagsValuesPkgs[tag]] after the inner loop of the closure has run
    over [values] for the package [pkg]. *)
Definition insertAll (pkg : string) (values : list string)
    (subMap : gmap string (gmap string bool)) : gmap string (gmap string bool) :=
  foldl (fun subMap v => <[v := <[pkg := true]> (default ∅ (subMap !! v))]> subMap)
    subMap values.

(** [m[tag][v][pkg]], when all three keys are present. *)
Definition lookup3 (m : generatorTagsValuesPkgsMap) (tag v pkg : string)
    : option bool :=
  m !! tag ≫= fun subMap => subMap !! v ≫= fun subSet => subSet !! pkg.

(** The set of packages recorded for a tag and a value. *)
Definition pkgsOf (m : generatorTagsValuesPkgsMap) (tag value : string)
    : option (gmap string bool) :=
  m !! tag ≫= fun subMap => subMap !! value.

(** The map of requested tags [walkGenerated] builds from the
    configuration. *)
Definition configuredTags (v : Vendorer) : gmap string bool :=
  foldl (fun m tag => <[tag := true]> m) ∅ (K8sCodegenTags (cfg v)).

Definition isWriteFileEv (ev : event) : bool :=
  match ev with WriteFileEv _ _ _ _ _ => true | _ => false end.

(** Inputs of the examples. *)
Definition exampleVendorer : Vendorer :=
  {| cfg := {| GoPrefix := "k8s.io/kubernetes";
               K8sCodegenBzlFile := "build/kazel_generated.bzl";
               K8sCodegenBoilerplateFile := "";
               K8sCodegenTags := ["client-gen"] |};
     dryRun := false;
     skippedK8sCodegenPaths := [fun pkg => String.eqb pkg "b/skip"] |}.

Definition emptyState : walkState := {| tagsValuesPkgs := ∅; trace := [] |}.

Definition exampleWorld (statErr : option nat) : world :=
  {| tree := Directory None
               [("a.go", File (inr (annotation "client-gen" "true")))];
     readFile := fun _ => inl os.ENOENT;
     stat := fun _ => statErr |}.

Definition exampleWriteFile (path : string) (f : build.File) (boilerplate : string)
    (fileExists dryRun : bool) : bool * option error :=
  (negb fileExists, None).

(** The text of a match of [genTagRe]: the comment marker, blanks, the
    sentinel, the tag, the equals sign, the payload, blanks and the last
    newline of those blanks. *)
Definition annotationText (whole tag values : string) : Prop :=
  ∃ ws ws',
    allBytes isSpace ws = true ∧ allBytes isSpace ws' = true
    ∧ whole = "//" +:+ ws +:+ "+k8s:" +:+ tag +:+ "=" +:+ values +:+ ws' +:+ nl.

(** What holds of every entry of the index and of every read while a
    walk runs. *)
Definition walkSound (v : Vendorer) (requestedTags : gmap string bool)
    (st : walkState) : Prop :=
  (∀ tag value pkg b,
     lookup3 (tagsValuesPkgs st) tag value pkg = Some b →
     b = true ∧ is_Some (requestedTags !! tag) ∧ skipped v pkg = false
     ∧ ∃ path, ReadFileEv path ∈ trace st ∧ filepath.Dir path = pkg)
  ∧ Forall (fun ev => ∃ path, ev = ReadFileEv path
                      ∧ skipped v (filepath.Dir path) = false) (trace st).

(** No tag of the index has an empty map and no pair an empty set. *)
Definition indexFull (m : generatorTagsValuesPkgsMap) : Prop :=
  ∀ tag subMap, m !! tag = Some subMap →
    subMap ≠ ∅ ∧ ∀ value subSet, subMap !! value = Some subSet → subSet ≠ ∅.

(** A path the closure reads: a Go source that is not a test. *)
Definition isSource (path : string) : bool :=
  strings.HasSuffix path ".go" && negb (strings.HasSuffix path "_test.go").

(** The non-test Go sources of a tree with their contents, in the order
    of the listing. *)
Fixpoint sources (path : string) (fs : fsnode) : list (string * string) :=
  match fs with
  | File (inr b) => if isSource path then [(path, b)] else []
  | Directory None entries =>
      flat_map (fun entry =>
                  match entry with
                  | (name, child) => sources (filepath.Join path name) child
                  end) entries
  | _ => []
  end.

(** Nothing in the tree stops or cuts short the walk: every entry can be
    stat'ed and every directory listed, no containing directory matches a
    skip pattern, every source can be read and no directory is named like
    a source. *)
Fixpoint walkable (v : Vendorer) (path : string) (fs : fsnode) : bool :=
  negb (skipped v (filepath.Dir path))
  && match fs with
     | NoStat _ => false
     | File (inl _) => negb (isSource path)
     | File (inr _) => true
     | Directory (Some _) _ => false
     | Directory None entries =>
         negb (isSource path)
         && forallb (fun entry =>
                       match entry with
                       | (name, child) => walkable v (filepath.Join path name) child
                       end) entries
     end.

(** The closure on a source that it reads. *)
Definition scan (requestedTags : gmap string bool) (st : walkState)
    (src : string * string) : walkState :=
  {| tagsValuesPkgs :=
       addTags (filepath.Dir src.1) (extractTags src.2 requestedTags)
         (tagsValuesPkgs st);
     trace := trace st ++ [ReadFileEv src.1] |}.

Definition exampleTree : fsnode :=
  Directory None
    [ ("a", Directory None
              [ ("x.go", File (inr (annotation "client-gen" "true")));
                ("y.go", File (inr (annotation "client-gen" "true,listers")));
                ("y_test.go", File (inr (annotation "client-gen" "fake"))) ]);
      ("b", Directory None
              [ ("skip", Directory None
                           [("s.go", File (inr (annotation "client-gen" "true")))]);
                ("z.go", File (inr (annotation "client-gen" "true"))) ]);
      ("main.go", File (inr (annotation "client-gen" "true"))) ].

(** Induction on a file system tree, with the hypothesis for every entry
    of a directory. *)
Section fsnode_induction.
Variable P : fsnode → Prop.
Hypothesis P_NoStat : ∀ errno, P (NoStat errno).
Hypothesis P_File : ∀ contents, P (File contents).
Hypothesis P_Directory : ∀ readdirErr entries,
  Forall (fun entry => P entry.2) entries → P (Directory readdirErr entries).

Fixpoint fsnode_tree_ind (n : fsnode) : P n :=
  match n with
  | NoStat errno => P_NoStat errno
  | File contents => P_File contents
  | Directory readdirErr entries =>
      P_Directory readdirErr entries
        ((fix go (l : list (string * fsnode)) : Forall (fun entry => P entry.2) l :=
            match l with
            | [] => List.Forall_nil _
            | (name, x) :: l' =>
                List.Forall_cons _ (name, x) l' (fsnode_tree_ind x) (go l')
            end) entries)
  end.
End fsnode_induction.
(** * Properties *)

(** ** strings.Split *)

Lemma Split_nonempty (s : string) (sep : ascii) : strings.Split s sep ≠ [].
Proof.
  destruct s as [|c s]; simpl; [done|].
  destruct (Ascii.eqb c sep); [done|].
  by destruct (strings.Split s sep).
Qed.

(** Splitting gives back exactly the pieces that were joined, in order. *)
Lemma Split_no_sep (piece : string) (sep : ascii) :
  strings.ContainsByte piece sep = false → strings.Split piece sep = [piece].
Proof.
  induction piece as [|c piece IH]; simpl; [done|].
  rewrite (Ascii.eqb_sym sep c).
  destruct (Ascii.eqb c sep); simpl; [done|]. by intros ->%IH.
Qed.

Lemma Split_app_sep (piece tail : string) (sep : ascii) :
  strings.ContainsByte piece sep = false →
  strings.Split (piece +:+ String sep tail) sep = piece :: strings.Split tail sep.
Proof.
  induction piece as [|c piece IH]; simpl.
  - by rewrite Ascii.eqb_refl.
  - rewrite (Ascii.eqb_sym sep c).
    destruct (Ascii.eqb c sep); simpl; [done|]. by intros ->%IH.
Qed.

Lemma Split_Join (pieces : list string) (sep : ascii) :
  pieces ≠ [] →
  Forall (fun piece => strings.ContainsByte piece sep = false) pieces →
  strings.Split (strings.Join pieces sep) sep = pieces.
Proof.
  induction pieces as [|piece pieces IH]; [done|].
  intros _ [Hpiece Hall]%Forall_cons.
  destruct pieces as [|piece' pieces].
  - by apply Split_no_sep.
  - change (strings.Join (piece :: piece' :: pieces) sep)
      with (piece +:+ String sep (strings.Join (piece' :: pieces) sep)).
    rewrite Split_app_sep by done. by rewrite IH.
Qed.

(** ** extractTags *)

Section extractTags_facts.
Variable requestedTags : gmap string bool.

Lemma extractTags_step_lookup (tags : gmap string (list string))
    (m : list string) (t : string) :
  extractTags_step requestedTags tags m !! t =
    match m with
    | _ :: tag :: values :: _ =>
        if decide (tag = t ∧ is_Some (requestedTags !! tag))
        then Some (default [] (tags !! t) ++ strings.Split values ","%char)
        else tags !! t
    | _ => tags !! t
    end.
Proof.
  destruct m as [|whole [|tag [|values rest]]]; simpl; try done.
  destruct (requestedTags !! tag) eqn:Hreq.
  - rewrite lookup_insert.
    destruct (decide (tag = t)) as [->|Hne].
    + by rewrite decide_True by eauto.
    + rewrite decide_False; [done|]. by intros [? _].
  - case_decide as H; [|done]. destruct H as [_ [? ?]]. done.
Qed.

(** Keys only enter the result through the [requestedTags] test. *)
Lemma extractTags_fold_requested (ms : list (list string))
    (tags : gmap string (list string)) (t : string) :
  is_Some (foldl (extractTags_step requestedTags) tags ms !! t) →
  is_Some (tags !! t) ∨ is_Some (requestedTags !! t).
Proof.
  revert tags. induction ms as [|m ms IH]; intros tags; simpl; [auto|].
  intros [H|H]%IH; [|by right].
  rewrite extractTags_step_lookup in H.
  destruct m as [|whole [|tag [|values rest]]]; auto.
  case_decide as Hd; [|auto]. destruct Hd as [-> ?]. by right.
Qed.

(** Every list stored is the result of appending a [Split]. *)
Lemma extractTags_fold_nonempty (ms : list (list string))
    (tags : gmap string (list string)) (t : string) (l : list string) :
  (∀ t' l', tags !! t' = Some l' → l' ≠ []) →
  foldl (extractTags_step requestedTags) tags ms !! t = Some l → l ≠ [].
Proof.
  revert tags. induction ms as [|m ms IH]; intros tags Htags; simpl; [eauto|].
  apply IH. intros t' l'. rewrite extractTags_step_lookup.
  destruct m as [|whole [|tag [|values rest]]]; eauto.
  case_decide; [|eauto]. intros [= <-].
  intros [_ ?]%app_eq_nil. by eapply Split_nonempty.
Qed.

Lemma extractTags_fold_values (ms : list (list string))
    (tags : gmap string (list string)) (t : string) :
  is_Some (requestedTags !! t) →
  foldl (extractTags_step requestedTags) tags ms !! t =
    match valuesOf t ms with
    | [] => tags !! t
    | vs => Some (default [] (tags !! t) ++ vs)
    end.
Proof.
  intros Hreq. revert tags. induction ms as [|m ms IH]; intros tags; [done|].
  simpl. rewrite IH, extractTags_step_lookup. fold (valuesOf t ms).
  destruct m as [|whole [|tag [|values rest]]]; simpl; try done.
  destruct (decide (tag = t)) as [->|Hne].
  - rewrite decide_True by done.
    pose proof (Split_nonempty values ","%char) as Hne.
    destruct (strings.Split values ","%char) as [|x xs] eqn:Hsplit; [done|].
    simpl. destruct (valuesOf t ms); simpl.
    + by rewrite app_nil_r.
    + by rewrite <- app_assoc.
  - rewrite decide_False by (by intros [? _]). done.
Qed.

End extractTags_facts.

(** ** The matcher *)

Lemma append_cons (a : ascii) (s1 s2 : string) :
  String a s1 +:+ s2 = String a (s1 +:+ s2).
Proof. reflexivity. Qed.

Lemma append_nil_l (s : string) : "" +:+ s = s.
Proof. reflexivity. Qed.

Lemma append_assoc (s1 s2 s3 : string) : (s1 +:+ s2) +:+ s3 = s1 +:+ s2 +:+ s3.
Proof. induction s1 as [|c s1 IH]; [done|]. rewrite !append_cons. simpl. by f_equal. Qed.

Lemma append_nil_r (s : string) : s +:+ "" = s.
Proof. induction s as [|c s IH]; [done|]. rewrite append_cons. by f_equal. Qed.

Lemma length_append (s1 s2 : string) :
  String.length (s1 +:+ s2) = String.length s1 + String.length s2.
Proof. induction s1 as [|c s1 IH]; [done|]. rewrite !append_cons. simpl. by f_equal. Qed.

Lemma consumed_append (w rest : string) : consumed (w +:+ rest) rest = w.
Proof.
  unfold consumed. rewrite length_append.
  replace (String.length w + String.length rest - String.length rest)
    with (String.length w) by lia.
  induction w as [|c w IH]; [by destruct rest|].
  rewrite append_cons. simpl. by f_equal.
Qed.

Section rmatch_facts.
Context {R : Type}.
Implicit Types (k : string → caps → option R) (c : caps).

Lemma rmatch_Lit a k s c : rmatch (Lit a) k (String a s) c = k s c.
Proof. simpl. by rewrite Ascii.eqb_refl. Qed.

Lemma rmatch_LitThen lit r k s c :
  rmatch (LitThen lit r) k (lit +:+ s) c = rmatch r k s c.
Proof.
  induction lit as [|a lit IH]; [done|].
  rewrite append_cons. cbn [LitThen]. cbn [rmatch]. by rewrite rmatch_Lit.
Qed.

(** A greedy repetition takes the whole run when the rest of the
    pattern accepts what follows it. *)
Lemma rmatch_Star_stop cls k s c :
  stopsAt cls s = true → rmatch (Star cls) k s c = k s c.
Proof.
  destruct s as [|a s]; simpl; [done|]. by intros ->%negb_true_iff.
Qed.

Lemma rmatch_Star_cons cls k a s c :
  cls a = true →
  rmatch (Star cls) k (String a s) c =
    match rmatch (Star cls) k s c with
    | Some res => Some res
    | None => k (String a s) c
    end.
Proof. simpl. by intros ->. Qed.

Lemma rmatch_Star_greedy cls k w s c res :
  allBytes cls w = true → stopsAt cls s = true → k s c = Some res →
  rmatch (Star cls) k (w +:+ s) c = Some res.
Proof.
  intros Hw Hs Hk. induction w as [|a w IH].
  - rewrite append_nil_l. by rewrite rmatch_Star_stop.
  - simpl in Hw. apply andb_true_iff in Hw as [Ha Hw].
    rewrite append_cons, rmatch_Star_cons by done. by rewrite IH.
Qed.

Lemma rmatch_Plus_greedy cls k w s c res :
  w ≠ "" → allBytes cls w = true → stopsAt cls s = true →
  k s c = Some res →
  rmatch (Plus cls) k (w +:+ s) c = Some res.
Proof.
  destruct w as [|a w]; [done|]. intros _ Hw Hs Hk.
  simpl in Hw. apply andb_true_iff in Hw as [Ha Hw].
  unfold Plus. rewrite append_cons. cbn [rmatch]. rewrite Ha.
  by apply rmatch_Star_greedy.
Qed.

End rmatch_facts.

Lemma rmatch_width {R} (r : Regexp) :
  ∀ (k : string → caps → option R) s c res,
    rmatch r k s c = Some res →
    ∃ s' c', k s' c' = Some res ∧ String.length s' + minWidth r ≤ String.length s.
Proof.
  induction r as [cls|cls|r1 IH1 r2 IH2|i r IH]; intros k s c res.
  - destruct s as [|a s]; simpl; [done|].
    destruct (cls a); [|done]. intros Hk. exists s, c. split; [done|lia].
  - induction s as [|a s IHs].
    + simpl. intros Hk. exists "", c. split; [done|simpl; lia].
    + destruct (cls a) eqn:Ha.
      * rewrite rmatch_Star_cons by done.
        destruct (rmatch (Star cls) k s c) as [res'|] eqn:Hs.
        -- intros [= <-]. destruct (IHs eq_refl) as (s' & c' & ? & ?).
           exists s', c'. split; [done|simpl in *; lia].
        -- intros Hk. exists (String a s), c. split; [done|simpl; lia].
      * rewrite rmatch_Star_stop by (simpl; by rewrite Ha).
        intros Hk. exists (String a s), c. split; [done|simpl; lia].
  - cbn [rmatch]. intros (s1 & c1 & H1 & Hl1)%IH1.
    apply IH2 in H1 as (s2 & c2 & H2 & Hl2).
    exists s2, c2. split; [done|simpl; lia].
  - cbn [rmatch]. intros (s1 & c1 & H1 & Hl1)%IH.
    eexists s1, _. split; [done|simpl; lia].
Qed.

Lemma search_shrinks (r : Regexp) (s : string) m rest :
  0 < minWidth r → search r s = Some (m, rest) →
  String.length rest < String.length s.
Proof.
  intros Hr. induction s as [|a s IH]; simpl.
  - unfold matchAt. destruct (rmatch _ _ _ _) eqn:Hm; [|done].
    apply rmatch_width in Hm as (s' & c' & Hk & Hl). simpl in Hl. lia.
  - destruct (matchAt r (String a s)) as [res|] eqn:Hm.
    + intros [= ->]. unfold matchAt in Hm.
      apply rmatch_width in Hm as (s' & c' & [= _ <-] & Hl). simpl in Hl. lia.
    + intros ?%IH. lia.
Qed.

Lemma allMatches_S (fuel : nat) (r : Regexp) (s : string) :
  allMatches (S fuel) r s =
    match search r s with
    | None => []
    | Some (m, rest) => m :: allMatches fuel r rest
    end.
Proof. reflexivity. Qed.

(** [allMatches] never runs out of fuel in [FindAllSubmatch]: more fuel
    than the input has bytes changes nothing. *)
Lemma allMatches_fuel (r : Regexp) :
  0 < minWidth r →
  ∀ fuel1 fuel2 s,
    String.length s < fuel1 → String.length s < fuel2 →
    allMatches fuel1 r s = allMatches fuel2 r s.
Proof.
  intros Hr. induction fuel1 as [|fuel1 IH]; intros fuel2 s H1 H2; [lia|].
  destruct fuel2 as [|fuel2]; [lia|]. simpl.
  destruct (search r s) as [[m rest]|] eqn:Hs; [|done].
  apply search_shrinks in Hs; [|done].
  f_equal. apply IH; lia.
Qed.

Lemma FindAllSubmatch_unfold (r : Regexp) (b : string) :
  0 < minWidth r →
  FindAllSubmatch r b =
    match search r b with
    | None => []
    | Some (m, rest) => m :: FindAllSubmatch r rest
    end.
Proof.
  intros Hr. unfold FindAllSubmatch. rewrite allMatches_S.
  destruct (search r b) as [[m rest]|] eqn:Hs; [|done].
  apply search_shrinks in Hs as Hlt; [|done].
  f_equal. apply allMatches_fuel; [done|lia..].
Qed.

Lemma genTagRe_minWidth : minWidth genTagRe = 11.
Proof. reflexivity. Qed.

(** ** Annotation lines *)

Lemma search_unfold (r : Regexp) (s : string) :
  search r s =
    match matchAt r s with
    | Some res => Some res
    | None =>
        match s with
        | String _ s' => search r s'
        | EmptyString => None
        end
    end.
Proof. by destruct s. Qed.

Lemma rmatch_genTagRe_annotation {R} (k : string → caps → option R)
    (c : caps) (tag values rest : string) (res : R) :
  tag ≠ "" → allBytes notSpaceOrEq tag = true →
  values ≠ "" → allBytes notSpace values = true →
  stopsAt isSpace rest = true →
  k rest ((2, values) :: (1, tag) :: c) = Some res →
  rmatch genTagRe k (annotation tag values +:+ rest) c = Some res.
Proof.
  intros Htag Htagb Hval Hvalb Hrest Hk.
  unfold annotation. rewrite !append_assoc.
  change "// +k8s:" with ("//" +:+ " " +:+ "+k8s:"). rewrite !append_assoc.
  unfold genTagRe. rewrite rmatch_LitThen. cbn [rmatch].
  apply rmatch_Star_greedy; [done..|].
  rewrite rmatch_LitThen. cbn [rmatch].
  apply rmatch_Plus_greedy; [done..|].
  rewrite consumed_append.
  rewrite append_cons, append_nil_l, rmatch_Lit.
  apply rmatch_Plus_greedy; [done..|].
  rewrite consumed_append.
  unfold nl. rewrite append_cons, append_nil_l.
  destruct rest as [|a rest]; simpl in Hrest; cbn -[Ascii.eqb isSpace].
  { change (isSpace "010") with true. cbv iota. by rewrite Ascii.eqb_refl. }
  change (isSpace "010") with true. cbv iota.
  apply negb_true_iff in Hrest. rewrite Hrest, Ascii.eqb_refl.
  assert (Ascii.eqb "010" a = false) as ->; [|done].
  unfold isSpace in Hrest. rewrite (Ascii.eqb_sym "010"%char a).
  destruct (Ascii.eqb a "010"); [|done].
  by rewrite orb_true_r in Hrest.
Qed.

Lemma search_annotation (tag values rest : string) :
  tag ≠ "" → allBytes notSpaceOrEq tag = true →
  values ≠ "" → allBytes notSpace values = true →
  stopsAt isSpace rest = true →
  search genTagRe (annotation tag values +:+ rest)
  = Some ([annotation tag values; tag; values], rest).
Proof.
  intros. rewrite search_unfold. unfold matchAt.
  erewrite rmatch_genTagRe_annotation; [done..|].
  by rewrite consumed_append.
Qed.

(** Such a file has one match per line, in order. *)
Lemma FindAllSubmatch_annotations (lines : list (string * string)) :
  Forall (fun line => wfLine line = true) lines →
  FindAllSubmatch genTagRe (annotations lines)
  = (fun line => [annotation line.1 line.2; line.1; line.2]) <$> lines.
Proof.
  induction 1 as [|[tag values] lines Hwf Hall IH]; [done|].
  cbn [annotations]. rewrite FindAllSubmatch_unfold by (rewrite genTagRe_minWidth; lia).
  unfold wfLine in Hwf. simpl in Hwf.
  apply andb_true_iff in Hwf as [Hwf Hvalb].
  apply andb_true_iff in Hwf as [Hwf Hval].
  apply andb_true_iff in Hwf as [Htag Htagb].
  apply negb_true_iff, String.eqb_neq in Htag.
  apply negb_true_iff, String.eqb_neq in Hval.
  rewrite search_annotation; try done.
  - by rewrite IH.
  - by destruct lines as [|[??] ?].
Qed.

Lemma wfAnnotation_Split (line : string * list string) :
  wfAnnotation line = true →
  strings.Split (payload line.2) ","%char = line.2.
Proof.
  destruct line as [tag pieces]. unfold wfAnnotation. simpl.
  intros [Hwf Hpieces]%andb_true_iff.
  destruct pieces as [|piece pieces].
  { unfold wfLine in Hwf. simpl in Hwf. by rewrite andb_false_r in Hwf. }
  apply Split_Join; [done|].
  apply Forall_forall. intros p Hp%list_elem_of_In.
  rewrite forallb_forall in Hpieces. by apply negb_true_iff, Hpieces.
Qed.

(** C3. Every key of the mapping returned by [extractTags] is a key of
    [requestedTags]; an annotation whose tag is not requested leaves no
    entry (and there is no error to return); without matches the mapping
    is empty. *)
Theorem extractTags_only_requested (b : string) (requestedTags : gmap string bool) :
  (∀ tag, is_Some (extractTags b requestedTags !! tag) →
          is_Some (requestedTags !! tag))
  ∧ (∀ tag, requestedTags !! tag = None →
            extractTags b requestedTags !! tag = None)
  ∧ (FindAllSubmatch genTagRe b = [] → extractTags b requestedTags = ∅).
Proof.
  assert (Hkeys : ∀ tag, is_Some (extractTags b requestedTags !! tag) →
                         is_Some (requestedTags !! tag)).
  { intros tag [H|H]%extractTags_fold_requested; [|done].
    rewrite lookup_empty in H. by destruct H. }
  split_and!; [done|..].
  - intros tag Hnone. apply eq_None_not_Some. intros H%Hkeys.
    rewrite Hnone in H. by destruct H.
  - unfold extractTags. by intros ->.
Qed.

Lemma extractTags_only_requested_witness :
  let b := annotation "client-gen" "true" +:+ annotation "other" "x" in
  let requestedTags : gmap string bool := {[ "client-gen" := true ]} in
  extractTags b requestedTags !! "client-gen" = Some ["true"]
  ∧ extractTags b requestedTags !! "other" = None
  ∧ extractTags "package main" requestedTags = ∅.
Proof.
  intros b requestedTags.
  destruct (extractTags_only_requested b requestedTags) as (_ & Hb & _).
  destruct (extractTags_only_requested "package main" requestedTags) as (_ & _ & He).
  split_and!; [by vm_compute | by apply Hb | by apply He].
Defined.

(** C4. A requested tag is mapped to the sub-values of its matches, each
    payload split at its commas from left to right and the matches taken
    in the order of the text.  In a file of annotation lines the matches
    are the lines, so the tag is mapped to the sub-values of its lines as
    they are written. *)
Theorem extractTags_values_in_order (requestedTags : gmap string bool) (t : string) :
  is_Some (requestedTags !! t) →
  (∀ b : string,
     extractTags b requestedTags !! t
     = match valuesOf t (FindAllSubmatch genTagRe b) with
       | [] => None
       | vs => Some vs
       end)
  ∧ (∀ file : list (string * list string),
       Forall (fun line => wfAnnotation line = true) file →
       extractTags (annotations ((fun line => (line.1, payload line.2)) <$> file))
         requestedTags !! t
       = match valuesInOrder t file with
         | [] => None
         | vs => Some vs
         end).
Proof.
  intros Hreq.
  assert (Hmatches : ∀ b : string,
     extractTags b requestedTags !! t
     = match valuesOf t (FindAllSubmatch genTagRe b) with
       | [] => None
       | vs => Some vs
       end).
  { intros b. unfold extractTags.
    rewrite extractTags_fold_values by done. by rewrite lookup_empty. }
  split; [done|].
  intros file Hfile. rewrite Hmatches.
  rewrite FindAllSubmatch_annotations.
  2:{ apply Forall_fmap. eapply Forall_impl; [done|].
      intros line. unfold wfAnnotation. simpl. by intros [? _]%andb_true_iff. }
  replace (valuesOf t _) with (valuesInOrder t file); [done|].
  induction Hfile as [|line file Hline Hfile IH]; [done|].
  rewrite !fmap_cons. unfold valuesOf, valuesInOrder in *. simpl.
  rewrite IH. f_equal. case_decide; [|done].
  by rewrite wfAnnotation_Split.
Qed.

Lemma extractTags_values_in_order_witness :
  extractTags
    (annotation "t" "a,b,c" +:+ annotation "u" "x" +:+ annotation "t" "d,a")
    {[ "t" := true ]} !! "t"
  = Some ["a"; "b"; "c"; "d"; "a"].
Proof.
  assert (is_Some (({[ "t" := true ]} : gmap string bool) !! "t")) as Hreq.
  { exists true. by vm_compute. }
  apply (proj2 (extractTags_values_in_order {[ "t" := true ]} "t" Hreq)
           [("t", ["a"; "b"; "c"]); ("u", ["x"]); ("t", ["d"; "a"])]).
  repeat constructor.
Defined.

(** C10. [extractTags] returns empty strings for a payload with
    consecutive or trailing commas, and a key that is present is never
    mapped to an empty list. *)
Theorem extractTags_empty_values :
  extractTags (annotation "t" "a,,b") {[ "t" := true ]} !! "t"
    = Some ["a"; ""; "b"]
  ∧ extractTags (annotation "t" "a,") {[ "t" := true ]} !! "t"
    = Some ["a"; ""]
  ∧ ∀ (b : string) (requestedTags : gmap string bool) tag values,
      extractTags b requestedTags !! tag = Some values → values ≠ [].
Proof.
  split_and!; [by vm_compute..|].
  intros b requestedTags tag values. apply extractTags_fold_nonempty.
  intros t' l'. by rewrite lookup_empty.
Qed.

Lemma extractTags_empty_values_witness :
  extractTags (annotation "t" ",") {[ "t" := true ]} !! "t" = Some [""; ""]
  ∧ [""; ""] ≠ @nil string.
Proof.
  assert (extractTags (annotation "t" ",") {[ "t" := true ]} !! "t"
          = Some [""; ""]) as H by (by vm_compute).
  split; [exact H|].
  exact (proj2 (proj2 extractTags_empty_values) _ _ _ _ H).
Defined.

(** ** filepath.Walk *)

Section Walk_facts.
Context {St : Type} (walkFn : @filepath.WalkFunc St).

(** The loop inside [walk] is [walkEntries]. *)
Lemma walk_Directory (path : string) (readdirErr : option nat)
    (entries : list (string * fsnode)) (st : St) :
  filepath.walk walkFn path (Directory readdirErr entries) st =
    let '(err1, st1) :=
      walkFn path (Directory readdirErr entries) (PathError <$> readdirErr) st in
    match readdirErr, err1 with
    | None, None => filepath.walkEntries walkFn path entries st1
    | _, _ => (err1, st1)
    end.
Proof.
  cbn [filepath.walk].
  destruct (walkFn path _ _ st) as [err1 st1].
  destruct readdirErr, err1; try done.
  generalize st1. clear st1.
  induction entries as [|[name fileInfo] entries IH]; intros st1; [done|].
  cbn [filepath.walkEntries].
  destruct fileInfo.
  - destruct (walkFn _ _ _ st1) as [[err|] st']; [case_decide|]; by rewrite ?IH.
  - destruct (filepath.walk _ _ _ st1) as [[err|] st'];
      [destruct (_ || _)|]; by rewrite ?IH.
  - destruct (filepath.walk _ _ _ st1) as [[err|] st'];
      [destruct (_ || _)|]; by rewrite ?IH.
Qed.

Lemma walk_not_Directory (path : string) (info : fsnode) (st : St) :
  IsDir info = false →
  filepath.walk walkFn path info st = walkFn path info None st.
Proof. by destruct info. Qed.

(** What every call of [walkFn] preserves, the walk preserves. *)
Section invariant.
Variable Inv : St → Prop.
Hypothesis walkFn_Inv : ∀ path info err st,
  Inv st → Inv (walkFn path info err st).2.

Lemma walk_Inv (info : fsnode) :
  ∀ path st, Inv st → Inv (filepath.walk walkFn path info st).2.
Proof.
  induction info as [errno|contents|readdirErr entries IH]
    using fsnode_tree_ind; intros path st Hst.
  - by apply walkFn_Inv.
  - by apply walkFn_Inv.
  - rewrite walk_Directory.
    pose proof (walkFn_Inv path (Directory readdirErr entries)
                  (PathError <$> readdirErr) st Hst) as H1.
    destruct (walkFn path _ _ st) as [err1 st1]. simpl in H1.
    destruct readdirErr, err1; try done.
    revert st1 H1.
    induction IH as [|[name fileInfo] entries Hentry _ IHentries];
      intros st1 H1; [done|].
    cbn [filepath.walkEntries]. simpl in Hentry.
    destruct fileInfo.
    + pose proof (walkFn_Inv (filepath.Join path name) (NoStat errno)
                    (Some (PathError errno)) st1 H1) as H2.
      destruct (walkFn _ _ _ st1) as [[err|] st']; simpl in H2;
        [case_decide|]; auto.
    + pose proof (Hentry (filepath.Join path name) st1 H1) as H2.
      destruct (filepath.walk _ _ _ st1) as [[err|] st']; simpl in H2;
        [destruct (_ || _)|]; auto.
    + pose proof (Hentry (filepath.Join path name) st1 H1) as H2.
      destruct (filepath.walk _ _ _ st1) as [[err|] st']; simpl in H2;
        [destruct (_ || _)|]; auto.
Qed.

Lemma Walk_Inv (root : string) (info : fsnode) (st : St) :
  Inv st → Inv (filepath.Walk walkFn root info st).2.
Proof.
  intros Hst. unfold filepath.Walk.
  assert (Inv (match info with
               | NoStat errno => walkFn root info (Some (PathError errno)) st
               | _ => filepath.walk walkFn root info st
               end).2) as H.
  { destruct info; auto using walk_Inv. }
  by destruct (match info with NoStat _ => _ | _ => _ end).
Qed.
End invariant.

End Walk_facts.

(** ** filepath.Dir and filepath.Join *)

Lemma dirPart_no_slash (name : string) :
  filepath.hasSlash name = false → filepath.dirPart name = "".
Proof.
  destruct name as [|c name]; [done|]. simpl.
  by intros ->.
Qed.

Lemma hasSlash_append_slash (dir name : string) :
  filepath.hasSlash (dir +:+ String "/" name) = true.
Proof.
  induction dir as [|c dir IH]; [done|].
  rewrite append_cons. simpl. by rewrite IH, orb_true_r.
Qed.

Lemma dirPart_append_slash (dir name : string) :
  filepath.hasSlash name = false →
  filepath.dirPart (dir +:+ String "/" name) = dir +:+ "/".
Proof.
  intros Hname. induction dir as [|c dir IH].
  - rewrite !append_nil_l. simpl. by rewrite dirPart_no_slash.
  - rewrite !append_cons. simpl.
    by rewrite hasSlash_append_slash, orb_true_r, IH.
Qed.

Lemma dropLast_append_slash (dir : string) :
  filepath.dropLast (dir +:+ "/") = dir.
Proof.
  induction dir as [|c dir IH]; [done|].
  rewrite append_cons. simpl. rewrite IH.
  by destruct dir.
Qed.

Lemma cleanDir_spec (dir : string) :
  filepath.cleanDir dir = true →
  dir ≠ "" ∧ (dir = "/" ∨ strings.HasSuffix dir "/" = false).
Proof.
  destruct dir as [|a dir]; [done|]. intros H. split; [done|].
  destruct (decide (String a dir = "/")) as [|Hne]; [by left|right].
  unfold filepath.cleanDir in H.
  destruct a as [[] [] [] [] [] [] [] []];
    try (by apply negb_true_iff);
    destruct dir; try done; by apply negb_true_iff.
Qed.

(** The containing directory of an entry is the directory listed. *)
Lemma Dir_Join (dir name : string) :
  filepath.cleanDir dir = true → filepath.hasSlash name = false →
  filepath.Dir (filepath.Join dir name) = dir.
Proof.
  intros Hdir Hname. unfold filepath.Join.
  destruct (String.eqb_spec dir ".") as [->|Hdot].
  { unfold filepath.Dir. by rewrite dirPart_no_slash. }
  destruct (decide (dir = "/")) as [->|Hroot].
  { simpl. unfold filepath.Dir. simpl. by rewrite dirPart_no_slash. }
  destruct (cleanDir_spec dir Hdir) as [Hne [->|Hsuffix]]; [done|].
  rewrite Hsuffix.
  unfold filepath.Dir. rewrite dirPart_append_slash by done.
  destruct dir as [|a dir]; [done|]. rewrite append_cons.
  destruct dir as [|b dir].
  - rewrite append_nil_l.
    destruct a as [[] [] [] [] [] [] [] []]; done.
  - rewrite append_cons.
    transitivity (filepath.dropLast (String a (String b (dir +:+ "/")))).
    + destruct a as [[] [] [] [] [] [] [] []]; done.
    + by rewrite <- !append_cons, dropLast_append_slash.
Qed.

(** ** findGeneratorTags: the closure *)

Section walkFn_facts.
Variables (v : Vendorer) (requestedTags : gmap string bool).

Lemma walkFn_err path info e st :
  walkFn v requestedTags path info (Some e) st = (Some e, st).
Proof. done. Qed.

Lemma walkFn_skipped path info st :
  skipped v (filepath.Dir path) = true →
  walkFn v requestedTags path info None st = (Some SkipDir, st).
Proof. unfold walkFn, skipped. by intros ->. Qed.

Lemma walkFn_not_source path info err st :
  strings.HasSuffix path ".go" = false ∨ strings.HasSuffix path "_test.go" = true →
  (walkFn v requestedTags path info err st).2 = st.
Proof.
  intros Hsuffix. unfold walkFn. destruct err; [done|].
  destruct (existsb _ _); [done|].
  by destruct Hsuffix as [-> | ->]; rewrite ?orb_true_r.
Qed.

Lemma walkFn_read_error path info st errno :
  skipped v (filepath.Dir path) = false →
  strings.HasSuffix path ".go" = true →
  strings.HasSuffix path "_test.go" = false →
  ioutil.ReadFile info = inl errno →
  walkFn v requestedTags path info None st =
    (Some (PathError errno),
     {| tagsValuesPkgs := tagsValuesPkgs st;
        trace := trace st ++ [ReadFileEv path] |}).
Proof. unfold walkFn, skipped. by intros -> -> -> ->. Qed.

Lemma walkFn_trace path info err st :
  Forall goRead (trace st) →
  Forall goRead (trace (walkFn v requestedTags path info err st).2).
Proof.
  intros Hst. unfold walkFn. destruct err; [done|].
  destruct (existsb _ _); [done|].
  destruct (strings.HasSuffix path ".go") eqn:Hgo; [|done].
  destruct (strings.HasSuffix path "_test.go") eqn:Htest; [done|]. simpl.
  assert (Forall goRead (trace st ++ [ReadFileEv path])).
  { apply Forall_app. split; [done|]. repeat constructor. by exists path. }
  by destruct (ioutil.ReadFile info).
Qed.

(** Inside a skipped directory every entry is answered with [SkipDir]
    (or with its own stat error) before anything is read. *)
Lemma walkEntries_skipped path entries st :
  skipped v path = true → filepath.cleanDir path = true →
  Forall (fun entry => filepath.hasSlash entry.1 = false) entries →
  (filepath.walkEntries (walkFn v requestedTags) path entries st).2 = st.
Proof.
  intros Hskip Hclean. revert st.
  induction entries as [|[name fileInfo] entries IH]; intros st Hnames; [done|].
  apply Forall_cons in Hnames as [Hname Hnames]. simpl in Hname.
  cbn [filepath.walkEntries].
  assert (Hfn : ∀ info, walkFn v requestedTags (filepath.Join path name) info None st
                        = (Some SkipDir, st)).
  { intros info. apply walkFn_skipped. by rewrite Dir_Join. }
  destruct fileInfo as [errno|contents|readdirErr sub].
  - rewrite walkFn_err. by rewrite decide_False.
  - rewrite walk_not_Directory, Hfn by done. done.
  - rewrite walk_Directory. destruct readdirErr as [errno|].
    + change (PathError <$> Some errno) with (Some (PathError errno)).
      by rewrite walkFn_err.
    + change (PathError <$> None) with (@None error).
      rewrite Hfn. simpl. by apply IH.
Qed.

End walkFn_facts.

(** C1. When the walk reaches a directory whose path matches a skip
    pattern, it leaves the index as it was and reads nothing beneath the
    directory: the only read there can be is of the directory's own path
    (when that has the source suffix), which fails. *)
Theorem skipped_directory_pruned (v : Vendorer) (requestedTags : gmap string bool)
    (path : string) (readdirErr : option nat) (entries : list (string * fsnode))
    (st : walkState) :
  existsb (fun r => r path) (skippedK8sCodegenPaths v) = true →
  filepath.cleanDir path = true →
  Forall (fun entry => filepath.hasSlash entry.1 = false) entries →
  let st' := (filepath.walk (walkFn v requestedTags) path
                (Directory readdirErr entries) st).2 in
  tagsValuesPkgs st' = tagsValuesPkgs st
  ∧ (trace st' = trace st ∨ trace st' = trace st ++ [ReadFileEv path])
  ∧ ∀ q, q ≠ path → ReadFileEv q ∈ trace st' → ReadFileEv q ∈ trace st.
Proof.
  intros Hskip Hclean Hnames st'.
  assert (st' = st ∨
          st' = {| tagsValuesPkgs := tagsValuesPkgs st;
                   trace := trace st ++ [ReadFileEv path] |}) as Hst'.
  { subst st'. rewrite walk_Directory.
    destruct readdirErr as [errno|]; simpl; [by left|].
    destruct (existsb (fun r => r (filepath.Dir path)) _); [by left|].
    destruct (negb _ || _); [|by right].
    left. by apply walkEntries_skipped. }
  destruct Hst' as [-> | ->]; simpl; split_and!; auto.
  intros q Hq [?|Hin%list_elem_of_singleton]%elem_of_app; [done|].
  by injection Hin.
Qed.

 

(** C7. A path without the [.go] suffix, or with the [_test.go] suffix,
    is not read and leaves the index as it was; every read of a walk is of
    a non-test [.go] path. *)
Theorem only_go_sources_read (v : Vendorer) (requestedTags : gmap string bool) :
  (∀ path info err st,
     strings.HasSuffix path ".go" = false ∨ strings.HasSuffix path "_test.go" = true →
     (walkFn v requestedTags path info err st).2 = st)
  ∧ (∀ root fs,
       Forall (fun ev => ∃ path, ev = ReadFileEv path
                 ∧ strings.HasSuffix path ".go" = true
                 ∧ strings.HasSuffix path "_test.go" = false)
         (trace (runWalk v root requestedTags fs).2)).
Proof.
  split.
  - intros path info err st. apply walkFn_not_source.
  - intros root fs. unfold runWalk.
    apply (Walk_Inv (walkFn v requestedTags)
             (fun st => Forall goRead (trace st))); [|done].
    intros path info err st. apply walkFn_trace.
Qed.

Lemma only_go_sources_read_witness :
  let v := {| cfg := {| GoPrefix := ""; K8sCodegenBzlFile := "out.bzl";
                        K8sCodegenBoilerplateFile := ""; K8sCodegenTags := ["t"] |};
              dryRun := false; skippedK8sCodegenPaths := [] |} in
  let st := {| tagsValuesPkgs := ∅; trace := [] |} in
  (walkFn v {[ "t" := true ]} "a/b_test.go" (File (inr (annotation "t" "x"))) None st).2
  = st.
Proof.
  intros v st.
  apply (proj1 (only_go_sources_read v {[ "t" := true ]})).
  right. reflexivity.
Defined.

(** C6. An error handed to the closure by the traversal, or met when
    reading a file, is returned by the closure; it ends the listing of the
    directory being walked, whatever entries remain, and so of every
    directory above; [findGeneratorTags] returns it with a [nil] map. *)
Theorem walk_error_aborts (v : Vendorer) (requestedTags : gmap string bool) :
  (∀ path info e st,
     walkFn v requestedTags path info (Some e) st = (Some e, st))
  ∧ (∀ path info st errno,
       existsb (fun r => r (filepath.Dir path)) (skippedK8sCodegenPaths v) = false →
       strings.HasSuffix path ".go" = true →
       strings.HasSuffix path "_test.go" = false →
       ioutil.ReadFile info = inl errno →
       (walkFn v requestedTags path info None st).1 = Some (PathError errno))
  ∧ (∀ path before name fileInfo after st st1 errno st2,
       filepath.walkEntries (walkFn v requestedTags) path before st = (None, st1) →
       lstatWalk (walkFn v requestedTags) (filepath.Join path name) fileInfo st1
       = (Some (PathError errno), st2) →
       filepath.walkEntries (walkFn v requestedTags) path
         (before ++ (name, fileInfo) :: after) st
       = (Some (PathError errno), st2))
  ∧ (∀ path entries st st1 err st2,
       walkFn v requestedTags path (Directory None entries) None st = (None, st1) →
       filepath.walkEntries (walkFn v requestedTags) path entries st1 = (err, st2) →
       filepath.walk (walkFn v requestedTags) path (Directory None entries) st
       = (err, st2))
  ∧ (∀ path readdirErr entries st,
       filepath.walk (walkFn v requestedTags) path
         (Directory (Some readdirErr) entries) st
       = (Some (PathError readdirErr), st))
  ∧ (∀ root fs errno st,
       lstatWalk (walkFn v requestedTags) root fs
         {| tagsValuesPkgs := ∅; trace := [] |}
       = (Some (PathError errno), st) →
       findGeneratorTags v root requestedTags fs = (None, Some (PathError errno))).
Proof.
  split_and!.
  - done.
  - intros path info st errno ????. by erewrite walkFn_read_error.
  - intros path before name fileInfo after. 
    induction before as [|[name' fileInfo'] before IH];
      intros st st1 errno st2 Hbefore Hfail.
    + injection Hbefore as <-. cbn [app filepath.walkEntries].
      unfold lstatWalk in Hfail. destruct fileInfo as [errno'| |].
      * rewrite Hfail. by rewrite decide_False.
      * by rewrite Hfail.
      * rewrite Hfail. by rewrite bool_decide_false.
    + cbn [app filepath.walkEntries] in Hbefore |- *.
      destruct fileInfo'.
      * destruct (walkFn _ _ _ _ _ st) as [[err|] st'];
          [case_decide; [|done]|]; eauto.
      * destruct (filepath.walk _ _ _ st) as [[err|] st'];
          [destruct (_ || _); [done|]|]; eauto.
      * destruct (filepath.walk _ _ _ st) as [[err|] st'];
          [destruct (_ || _); [done|]|]; eauto.
  - intros path entries st st1 err st2 Hfn Hentries.
    rewrite walk_Directory. change (PathError <$> None) with (@None error).
    by rewrite Hfn.
  - intros path readdirErr entries st. by rewrite walk_Directory.
  - intros root fs errno st Hfs. unfold findGeneratorTags, runWalk, filepath.Walk.
    unfold lstatWalk in Hfs. by destruct fs; rewrite Hfs.
Qed.

(** ** The index *)

Lemma insertAll_lookup (pkg : string) (values : list string)
    (subMap : gmap string (gmap string bool)) (v : string) :
  insertAll pkg values subMap !! v =
    if decide (v ∈ values)
    then Some (<[pkg := true]> (default ∅ (subMap !! v)))
    else subMap !! v.
Proof.
  unfold insertAll. revert subMap.
  induction values as [|v0 values IH]; intros subMap; cbn [foldl].
  { by rewrite decide_False by apply not_elem_of_nil. }
  rewrite IH.
  destruct (decide (v ∈ values)) as [Hin|Hnin].
  - rewrite decide_True by (by right).
    destruct (decide (v0 = v)) as [->|Hne].
    + by rewrite lookup_insert_eq; simpl; rewrite insert_insert_eq.
    + by rewrite lookup_insert_ne.
  - destruct (decide (v0 = v)) as [->|Hne].
    + rewrite decide_True by (by left). by rewrite lookup_insert_eq.
    + rewrite decide_False by (by intros [?|?]%elem_of_cons).
      by rewrite lookup_insert_ne.
Qed.

Lemma addPkg_fold (tag pkg : string) (values : list string)
    (m : generatorTagsValuesPkgsMap) (subMap : gmap string (gmap string bool)) :
  m !! tag = Some subMap →
  foldl (fun m v => addPkg tag v pkg m) m values
  = <[tag := insertAll pkg values subMap]> m.
Proof.
  revert m subMap. induction values as [|v values IH]; intros m subMap Hm; simpl.
  { by rewrite insert_id. }
  unfold addPkg at 2. rewrite Hm. simpl.
  erewrite IH by apply lookup_insert_eq.
  by rewrite insert_insert_eq.
Qed.

Lemma addValues_insert (pkg tag : string) (values : list string)
    (m : generatorTagsValuesPkgsMap) :
  addValues pkg m (tag, values)
  = <[tag := insertAll pkg values (default ∅ (m !! tag))]> m.
Proof.
  unfold addValues. destruct (m !! tag) as [subMap|] eqn:Hm; simpl.
  - by apply addPkg_fold.
  - erewrite addPkg_fold by apply lookup_insert_eq.
    by rewrite insert_insert_eq.
Qed.

Lemma addValues_fold_lookup (pkg : string) (l : list (string * list string))
    (m : generatorTagsValuesPkgsMap) (t : string) :
  NoDup l.*1 →
  foldl (addValues pkg) m l !! t =
    match (list_to_map l : gmap string (list string)) !! t with
    | Some values => Some (insertAll pkg values (default ∅ (m !! t)))
    | None => m !! t
    end.
Proof.
  revert m. induction l as [|[tag values] l IH]; intros m Hnodup; [done|].
  apply NoDup_cons in Hnodup as [Hnotin Hnodup]. simpl in Hnotin.
  cbn [foldl]. rewrite IH by done. rewrite addValues_insert.
  rewrite list_to_map_cons.
  destruct (decide (tag = t)) as [->|Hne].
  - rewrite lookup_insert_eq.
    apply (not_elem_of_list_to_map (M:=gmap string)) in Hnotin.
    by rewrite Hnotin, lookup_insert_eq.
  - by rewrite !lookup_insert_ne.
Qed.

Lemma addTags_lookup (pkg : string) (tags : gmap string (list string))
    (m : generatorTagsValuesPkgsMap) (t : string) :
  addTags pkg tags m !! t =
    match tags !! t with
    | Some values => Some (insertAll pkg values (default ∅ (m !! t)))
    | None => m !! t
    end.
Proof.
  unfold addTags. rewrite addValues_fold_lookup by apply NoDup_fst_map_to_list.
  by rewrite list_to_map_to_list.
Qed.

(** The order in which [range] visits the map [extractTags] returned does
    not matter. *)
Lemma addTags_order (pkg : string) (tags : gmap string (list string))
    (m : generatorTagsValuesPkgsMap) (l : list (string * list string)) :
  l ≡ₚ map_to_list tags → foldl (addValues pkg) m l = addTags pkg tags m.
Proof.
  intros Hl. apply map_eq. intros t.
  assert (NoDup l.*1) as Hnodup.
  { rewrite Hl. apply NoDup_fst_map_to_list. }
  rewrite addValues_fold_lookup, addTags_lookup by done.
  rewrite (list_to_map_proper l (map_to_list tags)) by done.
  by rewrite list_to_map_to_list.
Qed.

Lemma addTags_lookup3 (pkg : string) (tags : gmap string (list string))
    (m : generatorTagsValuesPkgsMap) (tag v p : string) :
  lookup3 (addTags pkg tags m) tag v p =
    if decide (p = pkg ∧ v ∈ default [] (tags !! tag))
    then Some true
    else lookup3 m tag v p.
Proof.
  unfold lookup3. rewrite addTags_lookup.
  destruct (tags !! tag) as [values|] eqn:Htag; simpl.
  - rewrite insertAll_lookup.
    destruct (decide (v ∈ values)) as [Hin|Hnin]; simpl.
    + destruct (decide (p = pkg)) as [->|Hne].
      * rewrite lookup_insert_eq. by rewrite decide_True.
      * rewrite lookup_insert_ne by done.
        rewrite decide_False by (by intros [? _]).
        destruct (m !! tag) as [subMap|]; simpl; [|done].
        by destruct (subMap !! v).
    + rewrite decide_False by (by intros [_ ?]). by destruct (m !! tag).
  - rewrite decide_False; [done|]. by intros [_ ?%elem_of_nil].
Qed.

(** Adding the tags of a file of the same package a second time changes
    nothing. *)
Lemma addTags_idemp (pkg : string) (tags : gmap string (list string))
    (m : generatorTagsValuesPkgsMap) :
  addTags pkg tags (addTags pkg tags m) = addTags pkg tags m.
Proof.
  apply map_eq. intros t. rewrite !addTags_lookup.
  destruct (tags !! t) as [values|]; [|done]. simpl. f_equal.
  apply map_eq. intros v. rewrite !insertAll_lookup.
  destruct (decide (v ∈ values)); [|done]. simpl.
  by rewrite insert_insert_eq.
Qed.

(** The index does not depend on the order in which two files are
    visited. *)
Lemma addTags_comm (pkg1 pkg2 : string) (tags1 tags2 : gmap string (list string))
    (m : generatorTagsValuesPkgsMap) :
  addTags pkg1 tags1 (addTags pkg2 tags2 m)
  = addTags pkg2 tags2 (addTags pkg1 tags1 m).
Proof.
  apply map_eq. intros t. rewrite !addTags_lookup.
  destruct (tags1 !! t) as [values1|], (tags2 !! t) as [values2|]; simpl; try done.
  f_equal. apply map_eq. intros v. rewrite !insertAll_lookup.
  destruct (decide (v ∈ values1)), (decide (v ∈ values2)); simpl; try done.
  f_equal. destruct (decide (pkg1 = pkg2)) as [->|Hne]; [done|].
  by apply insert_insert_ne.
Qed.

(** ** flattened *)

Lemma flattened_lookup (m : generatorTagsValuesPkgsMap) (tag value : string) :
  flattened m !! tag ≫= (fun subMap => subMap !! value)
  = (m !! tag ≫= fun subMap => subMap !! value) ≫= flattenedLeaf.
Proof.
  unfold flattened. rewrite lookup_fmap.
  destruct (m !! tag) as [subMap|]; simpl; [|done].
  by rewrite lookup_omap.
Qed.

Lemma flattenedLeaf_Some (subSet : gmap string bool) (leaf : list string) :
  flattenedLeaf subSet = Some leaf → leaf = sort_Strings (rangeKeys subSet).
Proof.
  unfold flattenedLeaf. destruct (rangeKeys subSet); [done|]. congruence.
Qed.

Lemma sort_Strings_Sorted (l : list string) :
  StronglySorted String.le (sort_Strings l).
Proof. apply StronglySorted_merge_sort; apply _. Qed.

Lemma sort_Strings_Permutation (l : list string) : sort_Strings l ≡ₚ l.
Proof. apply merge_sort_Permutation. Qed.

(** [sort.Strings] gives the same slice for every order of its input. *)
Lemma sort_Strings_order (l1 l2 : list string) :
  l1 ≡ₚ l2 → sort_Strings l1 = sort_Strings l2.
Proof.
  intros Hl. apply (Sorted_unique String.le).
  - apply Sorted_merge_sort; apply _.
  - apply Sorted_merge_sort; apply _.
  - by rewrite !sort_Strings_Permutation.
Qed.

Lemma elem_of_rangeKeys (subSet : gmap string bool) (pkg : string) :
  pkg ∈ rangeKeys subSet ↔ is_Some (subSet !! pkg).
Proof.
  unfold rangeKeys. rewrite list_elem_of_fmap. split.
  - intros ([k b] & -> & Hin%elem_of_map_to_list). eauto.
  - intros [b Hb]. exists (pkg, b). by rewrite elem_of_map_to_list.
Qed.

(** C2. A leaf of [flattened] is in increasing byte order and has no
    duplicates; it holds the packages of the set it comes from and is the
    same for every order in which the set is iterated.  [flattened] is a
    total function. *)
Theorem flattened_sorted_nodup (m : generatorTagsValuesPkgsMap)
    (tag value : string) (leaf : list string) :
  flattened m !! tag ≫= (fun subMap => subMap !! value) = Some leaf →
  StronglySorted String.le leaf
  ∧ NoDup leaf
  ∧ ∃ subSet,
      m !! tag ≫= (fun subMap => subMap !! value) = Some subSet
      ∧ (∀ pkg, pkg ∈ leaf ↔ is_Some (subSet !! pkg))
      ∧ ∀ order, order ≡ₚ rangeKeys subSet → sort_Strings order = leaf.
Proof.
  rewrite flattened_lookup.
  destruct (m !! tag ≫= _) as [subSet|]; simpl; [|done].
  intros ->%flattenedLeaf_Some. split_and!.
  - apply sort_Strings_Sorted.
  - rewrite sort_Strings_Permutation. apply NoDup_fst_map_to_list.
  - exists subSet. split_and!; [done| |].
    + intros pkg. by rewrite sort_Strings_Permutation, elem_of_rangeKeys.
    + intros order. apply sort_Strings_order.
Qed.

Lemma flattened_sorted_nodup_witness :
  let m : generatorTagsValuesPkgsMap :=
    {[ "client-gen" := {[ "true" := {[ "pkg/b" := true; "pkg/a" := true; "." := true ]} ]} ]} in
  flattened m !! "client-gen" ≫= (fun subMap => subMap !! "true")
    = Some ["."; "pkg/a"; "pkg/b"]
  ∧ StronglySorted String.le ["."; "pkg/a"; "pkg/b"]
  ∧ NoDup ["."; "pkg/a"; "pkg/b"].
Proof.
  intros m.
  assert (flattened m !! "client-gen" ≫= (fun subMap => subMap !! "true")
          = Some ["."; "pkg/a"; "pkg/b"]) as H by (by vm_compute).
  split; [exact H|].
  destruct (flattened_sorted_nodup m "client-gen" "true" _ H) as (Hsorted & Hnodup & _).
  split; assumption.
Defined.

(** ** Packages as a set *)

Lemma addTags_pkgsOf (pkg : string) (tags : gmap string (list string))
    (m : generatorTagsValuesPkgsMap) (tag value : string) :
  pkgsOf (addTags pkg tags m) tag value =
    if decide (value ∈ default [] (tags !! tag))
    then Some (<[pkg := true]> (default ∅ (pkgsOf m tag value)))
    else pkgsOf m tag value.
Proof.
  unfold pkgsOf. rewrite addTags_lookup.
  destruct (tags !! tag) as [values|].
  - change (default [] (Some values)) with values.
    cbn [mbind option_bind]. rewrite insertAll_lookup.
    destruct (decide (value ∈ values)); by destruct (m !! tag).
  - change (default [] None) with (@nil string).
    by rewrite decide_False by apply not_elem_of_nil.
Qed.

Lemma walkFn_read (v : Vendorer) (requestedTags : gmap string bool)
    (path b : string) (st : walkState) :
  skipped v (filepath.Dir path) = false →
  strings.HasSuffix path ".go" = true →
  strings.HasSuffix path "_test.go" = false →
  walkFn v requestedTags path (File (inr b)) None st =
    (None,
     {| tagsValuesPkgs :=
          addTags (filepath.Dir path) (extractTags b requestedTags) (tagsValuesPkgs st);
        trace := trace st ++ [ReadFileEv path] |}).
Proof. unfold walkFn, skipped. by intros -> -> ->. Qed.

Lemma filter_eq_not_elem_of (l : list string) (x : string) :
  x ∉ l → filter (fun y => y = x) l = [].
Proof.
  induction l as [|y l IH]; [done|].
  intros [Hne Hnotin]%not_elem_of_cons.
  rewrite filter_cons_False by (by intros ->). auto.
Qed.

Lemma filter_eq_NoDup (l : list string) (x : string) :
  NoDup l → x ∈ l → length (filter (fun y => y = x) l) = 1.
Proof.
  induction 1 as [|y l Hy Hl IH]; [by intros ?%elem_of_nil|].
  intros [->|Hin]%elem_of_cons.
  - rewrite filter_cons_True by done. by rewrite filter_eq_not_elem_of.
  - rewrite filter_cons_False by (by intros ->). auto.
Qed.

(** C5. Two files of one directory that both carry a (tag, value) pair
    leave that directory once in the pair's package set: the second file
    does not change the set, and the flattened leaf lists the directory
    exactly once. *)
Theorem same_package_counted_once (v : Vendorer) (requestedTags : gmap string bool)
    (path1 path2 b1 b2 tag value : string) (st : walkState) :
  filepath.Dir path2 = filepath.Dir path1 →
  skipped v (filepath.Dir path1) = false →
  strings.HasSuffix path1 ".go" = true →
  strings.HasSuffix path1 "_test.go" = false →
  strings.HasSuffix path2 ".go" = true →
  strings.HasSuffix path2 "_test.go" = false →
  value ∈ default [] (extractTags b1 requestedTags !! tag) →
  value ∈ default [] (extractTags b2 requestedTags !! tag) →
  let pkg := filepath.Dir path1 in
  let st1 := (walkFn v requestedTags path1 (File (inr b1)) None st).2 in
  let st2 := (walkFn v requestedTags path2 (File (inr b2)) None st1).2 in
  pkgsOf (tagsValuesPkgs st2) tag value = pkgsOf (tagsValuesPkgs st1) tag value
  ∧ lookup3 (tagsValuesPkgs st2) tag value pkg = Some true
  ∧ ∃ leaf,
      flattened (tagsValuesPkgs st2) !! tag ≫= (fun subMap => subMap !! value)
        = Some leaf
      ∧ length (filter (fun p => p = pkg) leaf) = 1.
Proof.
  intros Hdir Hskip Hgo1 Htest1 Hgo2 Htest2 Hin1 Hin2 pkg st1 st2.
  subst st2 st1.
  rewrite (walkFn_read v requestedTags path1 b1 st) by done.
  rewrite walkFn_read by (by rewrite ?Hdir). cbn [snd tagsValuesPkgs].
  rewrite Hdir. fold pkg.
  set (m1 := addTags pkg (extractTags b1 requestedTags) (tagsValuesPkgs st)).
  assert (pkgsOf m1 tag value
          = Some (<[pkg := true]> (default ∅ (pkgsOf (tagsValuesPkgs st) tag value))))
    as H1.
  { unfold m1. by rewrite addTags_pkgsOf, decide_True. }
  assert (pkgsOf (addTags pkg (extractTags b2 requestedTags) m1) tag value
          = pkgsOf m1 tag value) as H2.
  { rewrite addTags_pkgsOf, decide_True by done.
    rewrite H1. simpl. by rewrite insert_insert_eq. }
  split_and!; [done| |].
  - rewrite addTags_lookup3. by rewrite decide_True.
  - rewrite flattened_lookup. fold (pkgsOf (addTags pkg (extractTags b2 requestedTags) m1) tag value).
    rewrite H2, H1. simpl.
    set (subSet := <[pkg := true]> _).
    assert (pkg ∈ rangeKeys subSet) as Hpkg.
    { apply elem_of_rangeKeys. unfold subSet. rewrite lookup_insert_eq. eauto. }
    unfold flattenedLeaf.
    destruct (rangeKeys subSet) as [|p ps] eqn:Hkeys; [by apply elem_of_nil in Hpkg|].
    eexists. split; [done|].
    apply filter_eq_NoDup.
    + rewrite sort_Strings_Permutation, <- Hkeys. apply NoDup_fst_map_to_list.
    + by rewrite sort_Strings_Permutation.
Qed.

Lemma skipped_directory_pruned_witness :
  let entries :=
    [ ("d", Directory None [("q.go", File (inr (annotation "client-gen" "bad")))]);
      ("s.go", File (inr (annotation "client-gen" "bad"))) ] in
  let st' := (filepath.walk (walkFn exampleVendorer {[ "client-gen" := true ]})
                "b/skip" (Directory None entries) emptyState).2 in
  tagsValuesPkgs st' = ∅
  ∧ (trace st' = [] ∨ trace st' = [] ++ [ReadFileEv "b/skip"])
  ∧ ∀ q, q ≠ "b/skip" → ReadFileEv q ∈ trace st' → ReadFileEv q ∈ [].
Proof.
  intros entries.
  apply (skipped_directory_pruned exampleVendorer {[ "client-gen" := true ]}
           "b/skip" None entries emptyState).
  - reflexivity.
  - reflexivity.
  - repeat constructor.
Defined.

Lemma same_package_counted_once_witness :
  let st1 := (walkFn exampleVendorer {[ "client-gen" := true ]} "pkg/a.go"
                (File (inr (annotation "client-gen" "true"))) None emptyState).2 in
  let st2 := (walkFn exampleVendorer {[ "client-gen" := true ]} "pkg/b.go"
                (File (inr (annotation "client-gen" "deepcopy,true"))) None st1).2 in
  pkgsOf (tagsValuesPkgs st2) "client-gen" "true"
    = pkgsOf (tagsValuesPkgs st1) "client-gen" "true"
  ∧ lookup3 (tagsValuesPkgs st2) "client-gen" "true" "pkg" = Some true
  ∧ ∃ leaf,
      flattened (tagsValuesPkgs st2) !! "client-gen"
        ≫= (fun subMap => subMap !! "true") = Some leaf
      ∧ length (filter (fun p => p = "pkg") leaf) = 1.
Proof.
  apply (same_package_counted_once exampleVendorer {[ "client-gen" := true ]}
           "pkg/a.go" "pkg/b.go"
           (annotation "client-gen" "true")
           (annotation "client-gen" "deepcopy,true")
           "client-gen" "true" emptyState); try reflexivity.
  - vm_compute. repeat constructor.
  - vm_compute. repeat constructor.
Defined.

Lemma walk_error_aborts_witness :
  let fs :=
    Directory None
      [ ("a", Directory None
                [ ("x.go", File (inl os.EACCES));
                  ("y.go", File (inr (annotation "client-gen" "true"))) ]);
        ("z.go", File (inr (annotation "client-gen" "true"))) ] in
  findGeneratorTags exampleVendorer "." {[ "client-gen" := true ]} fs
  = (None, Some (PathError os.EACCES)).
Proof.
  intros fs.
  destruct (walk_error_aborts exampleVendorer {[ "client-gen" := true ]})
    as (_ & _ & _ & _ & _ & Hfind).
  eapply Hfind. by vm_compute.
Defined.

(** ** walkGenerated *)

Section walkGenerated_facts.
Variable writeFile :
  string → build.File → string → bool → bool → bool * option error.

Lemma runWalk_reads (v : Vendorer) (root : string)
    (requestedTags : gmap string bool) (fs : fsnode) :
  Forall (fun ev => isWriteFileEv ev = false)
    (trace (runWalk v root requestedTags fs).2).
Proof.
  eapply Forall_impl.
  - apply (Walk_Inv (walkFn v requestedTags)
             (fun st => Forall goRead (trace st))); [|done].
    intros path info err st. apply walkFn_trace.
  - by intros ev (path & -> & _).
Qed.

Lemma document_Path (v : Vendorer) (m : generatorTagsValuesPkgsMap) :
  build.Path (document v m) = K8sCodegenBzlFile (cfg v).
Proof. done. Qed.

(** C9. With no output file configured, [walkGenerated] returns
    [(false, nil)] having walked, read and written nothing. *)
Theorem walkGenerated_no_output_file (v : Vendorer) (w : world) :
  K8sCodegenBzlFile (cfg v) = "" →
  walkGenerated writeFile v w = ((false, None), []).
Proof. unfold walkGenerated. by intros ->. Qed.

(** C8. Once the walk and the boilerplate are through, the outcome of
    [os.Stat] on the output file decides: not found is no error and
    [writeFile] is called with [fileExists = false]; any other failure
    is returned as [(false, err)] and [writeFile] is not called; a file
    that is there gives [fileExists = true]. *)
Theorem walkGenerated_stat (v : Vendorer) (w : world) :
  let path := K8sCodegenBzlFile (cfg v) in
  let boilerplateFile := K8sCodegenBoilerplateFile (cfg v) in
  let boilerplate :=
    if String.eqb boilerplateFile "" then inr "" else readFile w boilerplateFile in
  path ≠ "" →
  (findGeneratorTags v "." (configuredTags v) (tree w)).2 = None →
  (∃ bytes, boilerplate = inr bytes) →
  let '(res, tr) := walkGenerated writeFile v w in
  StatEv path ∈ tr
  ∧ match stat w path with
    | Some errno =>
        if Nat.eqb errno os.ENOENT
        then
          (∃ f bytes,
              res = writeFile path f bytes false (dryRun v)
              ∧ boilerplate = inr bytes
              ∧ last tr = Some (WriteFileEv path f bytes false (dryRun v)))
        else
          res = (false, Some (PathError errno))
          ∧ Forall (fun ev => isWriteFileEv ev = false) tr
    | None =>
        ∃ f bytes,
          res = writeFile path f bytes true (dryRun v)
          ∧ boilerplate = inr bytes
          ∧ last tr = Some (WriteFileEv path f bytes true (dryRun v))
    end.
Proof.
  intros path boilerplateFile boilerplate Hpath Hwalk [bytes Hbytes].
  unfold walkGenerated. fold path boilerplateFile (configuredTags v).
  apply String.eqb_neq in Hpath. rewrite Hpath.
  pose proof (runWalk_reads v "." (configuredTags v) (tree w)) as Hreads.
  destruct (findGeneratorTags v "." (configuredTags v) (tree w))
    as [tagsValuesPkgs err] eqn:Hfind.
  simpl in Hwalk. subst err.
  set (tr0 := trace (runWalk v "." (configuredTags v) (tree w)).2) in *.
  rewrite document_Path. fold path.
  set (f := document v _).
  assert (∃ tr1,
    (if String.eqb boilerplateFile "" then (inr "", tr0)
     else (readFile w boilerplateFile, tr0 ++ [ReadFileEv boilerplateFile]))
    = (inr bytes, tr1) ∧ Forall (fun ev => isWriteFileEv ev = false) tr1)
    as (tr1 & -> & Htr1).
  { subst boilerplate. destruct (String.eqb boilerplateFile "").
    - injection Hbytes as <-. by exists tr0.
    - rewrite Hbytes. eexists. split; [done|].
      apply Forall_app. split; [done|]. by repeat constructor. }
  destruct (stat w path) as [errno|] eqn:Hstat; simpl.
  - destruct (Nat.eqb errno os.ENOENT) eqn:Herrno; simpl.
    + split; [set_solver|].
      exists f, bytes. split_and!; [done..|]. by rewrite last_snoc.
    + split; [set_solver|]. split; [done|].
      apply Forall_app. split; [done|]. by repeat constructor.
  - split; [set_solver|].
    exists f, bytes. split_and!; [done..|]. by rewrite last_snoc.
Qed.

End walkGenerated_facts.

Lemma walkGenerated_no_output_file_witness :
  walkGenerated exampleWriteFile
    {| cfg := {| GoPrefix := ""; K8sCodegenBzlFile := "";
                 K8sCodegenBoilerplateFile := "LICENSE";
                 K8sCodegenTags := ["client-gen"] |};
       dryRun := false; skippedK8sCodegenPaths := [] |}
    (exampleWorld None)
  = ((false, None), []).
Proof. by apply walkGenerated_no_output_file. Defined.

Lemma walkGenerated_stat_witness :
  (walkGenerated exampleWriteFile exampleVendorer (exampleWorld (Some os.ENOENT))).1
    = (true, None)
  ∧ (walkGenerated exampleWriteFile exampleVendorer (exampleWorld (Some os.EACCES))).1
    = (false, Some (PathError os.EACCES)).
Proof.
  pose proof (walkGenerated_stat exampleWriteFile exampleVendorer
                (exampleWorld (Some os.ENOENT))) as H1.
  pose proof (walkGenerated_stat exampleWriteFile exampleVendorer
                (exampleWorld (Some os.EACCES))) as H2.
  cbv zeta in H1, H2.
  destruct (walkGenerated _ _ (exampleWorld (Some os.ENOENT))) as [res1 tr1].
  destruct (walkGenerated _ _ (exampleWorld (Some os.EACCES))) as [res2 tr2].
  split.
  - destruct H1 as (_ & f & bytes & -> & _); [done|by vm_compute|by eexists|done].
  - destruct H2 as (_ & -> & _); [done|by vm_compute|by eexists|done].
Defined.

(** * Further properties *)

(** ** What a match looks like *)

Section rmatch_inversion.
Context {R : Type}.
Implicit Types (k : string → caps → option R) (c : caps).

Lemma rmatch_Concat r1 r2 k s c :
  rmatch (Concat r1 r2) k s c = rmatch r1 (fun s' c' => rmatch r2 k s' c') s c.
Proof. reflexivity. Qed.

Lemma rmatch_Capture i r k s c :
  rmatch (Capture i r) k s c
  = rmatch r (fun s' c' => k s' ((i, consumed s s') :: c')) s c.
Proof. reflexivity. Qed.

Lemma rmatch_Class_inv cls k s c res :
  rmatch (Class cls) k s c = Some res →
  ∃ a s', s = String a s' ∧ cls a = true ∧ k s' c = Some res.
Proof.
  destruct s as [|a s]; simpl; [done|].
  destruct (cls a) eqn:Ha; [|done]. eauto.
Qed.

Lemma rmatch_Star_inv cls k s c res :
  rmatch (Star cls) k s c = Some res →
  ∃ w s', s = w +:+ s' ∧ allBytes cls w = true ∧ k s' c = Some res.
Proof.
  induction s as [|a s IH].
  - simpl. intros Hk. by exists "", "".
  - destruct (cls a) eqn:Ha.
    + rewrite rmatch_Star_cons by done.
      destruct (rmatch (Star cls) k s c) as [res'|] eqn:Hs.
      * intros [= <-]. destruct (IH eq_refl) as (w & s' & -> & Hw & Hk).
        exists (String a w), s'. split_and!; [done| |done].
        simpl. by rewrite Ha, Hw.
      * intros Hk. by exists "", (String a s).
    + rewrite rmatch_Star_stop by (simpl; by rewrite Ha).
      intros Hk. by exists "", (String a s).
Qed.

Lemma rmatch_Plus_inv cls k s c res :
  rmatch (Plus cls) k s c = Some res →
  ∃ w s', s = w +:+ s' ∧ w ≠ "" ∧ allBytes cls w = true ∧ k s' c = Some res.
Proof.
  unfold Plus. rewrite rmatch_Concat.
  intros (a & s1 & -> & Ha & Hstar)%rmatch_Class_inv.
  apply rmatch_Star_inv in Hstar as (w & s' & -> & Hw & Hk).
  exists (String a w), s'. split_and!; [done|done| |done].
  simpl. by rewrite Ha, Hw.
Qed.

Lemma rmatch_LitThen_inv lit r k s c res :
  rmatch (LitThen lit r) k s c = Some res →
  ∃ s', s = lit +:+ s' ∧ rmatch r k s' c = Some res.
Proof.
  revert s. induction lit as [|a lit IH]; intros s; cbn [LitThen].
  - intros Hr. by exists s.
  - rewrite rmatch_Concat. unfold Lit at 1.
    intros (b & s1 & -> & Hb & Hrest)%rmatch_Class_inv.
    apply Ascii.eqb_eq in Hb as <-.
    apply IH in Hrest as (s' & -> & Hr). by exists s'.
Qed.

(** Every match of [genTagRe] is an annotation, and the groups are its
    tag and its payload. *)
Lemma rmatch_genTagRe_inv k s c res :
  rmatch genTagRe k s c = Some res →
  ∃ whole tag values rest,
    s = whole +:+ rest
    ∧ annotationText whole tag values
    ∧ wfLine (tag, values) = true
    ∧ k rest ((2, values) :: (1, tag) :: c) = Some res.
Proof.
  unfold genTagRe.
  intros (s1 & -> & H)%rmatch_LitThen_inv. rewrite rmatch_Concat in H.
  apply rmatch_Star_inv in H as (ws & s2 & -> & Hws & H).
  apply rmatch_LitThen_inv in H as (s3 & -> & H).
  rewrite rmatch_Concat, rmatch_Capture in H.
  apply rmatch_Plus_inv in H as (tag & s4 & -> & Htag & Htagb & H).
  rewrite consumed_append, !rmatch_Concat in H. unfold Lit in H.
  apply rmatch_Class_inv in H as (eq & s5 & -> & Heq & H).
  apply Ascii.eqb_eq in Heq as <-. rewrite rmatch_Capture in H.
  apply rmatch_Plus_inv in H as (values & s6 & -> & Hval & Hvalb & H).
  rewrite consumed_append, rmatch_Concat in H.
  apply rmatch_Star_inv in H as (ws' & s7 & -> & Hws' & H).
  apply rmatch_Class_inv in H as (lf & rest & -> & Hlf & H).
  apply Ascii.eqb_eq in Hlf as <-.
  exists ("//" +:+ ws +:+ "+k8s:" +:+ tag +:+ "=" +:+ values +:+ ws' +:+ nl),
    tag, values, rest.
  split_and!.
  - by rewrite !append_assoc.
  - by exists ws, ws'.
  - unfold wfLine. simpl. rewrite Htagb, Hvalb.
    apply String.eqb_neq in Htag, Hval. by rewrite Htag, Hval.
  - done.
Qed.

End rmatch_inversion.

(** The shape of a submatch [m] of [genTagRe]. *)
Lemma search_genTagRe_inv (s : string) (m : list string) (rest : string) :
  search genTagRe s = Some (m, rest) →
  ∃ before whole tag values,
    s = before +:+ whole +:+ rest
    ∧ m = [whole; tag; values]
    ∧ annotationText whole tag values
    ∧ wfLine (tag, values) = true.
Proof.
  induction s as [|a s IH]; rewrite search_unfold.
  - by vm_compute.
  - destruct (matchAt genTagRe (String a s)) as [res|] eqn:Hm.
    + intros [= ->]. unfold matchAt in Hm.
      apply rmatch_genTagRe_inv in Hm
        as (whole & tag & values & rest' & Hs & Htext & Hwf & [= <- <-]).
      exists "", whole, tag, values. rewrite Hs at 1.
      split_and!; [done| |done..].
      rewrite Hs, consumed_append. done.
    + intros (before & whole & tag & values & -> & -> & Htext & Hwf)%IH.
      by exists (String a before), whole, tag, values.
Qed.

Lemma allMatches_genTagRe_shape (fuel : nat) (s : string) :
  Forall (fun m => ∃ whole tag values,
            m = [whole; tag; values]
            ∧ annotationText whole tag values
            ∧ wfLine (tag, values) = true)
    (allMatches fuel genTagRe s).
Proof.
  revert s. induction fuel as [|fuel IH]; intros s; [constructor|].
  rewrite allMatches_S.
  destruct (search genTagRe s) as [[m rest]|] eqn:Hs; [|constructor].
  constructor; [|apply IH].
  apply search_genTagRe_inv in Hs
    as (before & whole & tag & values & _ & -> & Htext & Hwf).
  by exists whole, tag, values.
Qed.

(** X1. Every submatch that [FindAllSubmatch] finds for [genTagRe] has
    three parts: the matched text, which is an annotation comment up to
    its newline, a non-empty tag without blanks or equals sign, and a
    non-empty payload without blanks. *)
Theorem genTagRe_matches_are_annotations (b : string) (m : list string) :
  m ∈ FindAllSubmatch genTagRe b →
  ∃ whole tag values,
    m = [whole; tag; values]
    ∧ annotationText whole tag values
    ∧ tag ≠ "" ∧ allBytes notSpaceOrEq tag = true
    ∧ values ≠ "" ∧ allBytes notSpace values = true.
Proof.
  intros Hm. unfold FindAllSubmatch in Hm.
  pose proof (allMatches_genTagRe_shape (S (String.length b)) b) as Hall.
  rewrite Forall_forall in Hall.
  destruct (Hall m Hm) as (whole & tag & values & -> & Htext & Hwf).
  exists whole, tag, values. unfold wfLine in Hwf. simpl in Hwf.
  apply andb_true_iff in Hwf as [Hwf Hvalb].
  apply andb_true_iff in Hwf as [Hwf Hval].
  apply andb_true_iff in Hwf as [Htag Htagb].
  apply negb_true_iff, String.eqb_neq in Htag.
  apply negb_true_iff, String.eqb_neq in Hval.
  done.
Qed.

Lemma genTagRe_matches_are_annotations_witness :
  ∃ whole tag values,
    ["//  +k8s:openapi-gen=true  " +:+ nl; "openapi-gen"; "true"]
      = [whole; tag; values]
    ∧ annotationText whole tag values
    ∧ tag ≠ "" ∧ allBytes notSpaceOrEq tag = true
    ∧ values ≠ "" ∧ allBytes notSpace values = true.
Proof.
  apply (genTagRe_matches_are_annotations
           ("package v1" +:+ nl +:+ "//  +k8s:openapi-gen=true  " +:+ nl)).
  vm_compute. constructor.
Defined.

(** ** The pieces of strings.Split *)

Lemma Split_pieces (s : string) (sep : ascii) (piece : string) :
  piece ∈ strings.Split s sep → strings.ContainsByte piece sep = false.
Proof.
  revert piece. induction s as [|c s IH]; intros piece; simpl.
  { by intros ->%list_elem_of_singleton. }
  destruct (Ascii.eqb c sep) eqn:Hc.
  - intros [->|Hin]%elem_of_cons; [done|auto].
  - pose proof (Split_nonempty s sep) as Hne.
    destruct (strings.Split s sep) as [|p ps]; [done|].
    intros [->|Hin]%elem_of_cons.
    + simpl. rewrite Ascii.eqb_sym, Hc. apply IH. by left.
    + apply IH. by right.
Qed.

Lemma Split_allBytes (cls : ascii → bool) (s : string) (sep : ascii)
    (piece : string) :
  allBytes cls s = true → piece ∈ strings.Split s sep →
  allBytes cls piece = true.
Proof.
  revert piece. induction s as [|c s IH]; intros piece; simpl.
  { by intros _ ->%list_elem_of_singleton. }
  intros [Hc Hs]%andb_true_iff.
  destruct (Ascii.eqb c sep).
  - intros [->|Hin]%elem_of_cons; [done|auto].
  - pose proof (Split_nonempty s sep) as Hne.
    destruct (strings.Split s sep) as [|p ps]; [done|].
    intros [->|Hin]%elem_of_cons.
    + simpl. rewrite Hc. apply IH; [done|by left].
    + apply IH; [done|by right].
Qed.

(** X2. Every key of the mapping [extractTags] returns is a non-empty tag
    name without blanks or equals sign, and every value under it is free
    of commas and of blanks. *)
Theorem extractTags_wellformed (b : string) (requestedTags : gmap string bool)
    (tag : string) (values : list string) :
  extractTags b requestedTags !! tag = Some values →
  tag ≠ "" ∧ allBytes notSpaceOrEq tag = true
  ∧ Forall (fun v => strings.ContainsByte v ","%char = false
                     ∧ allBytes notSpace v = true) values.
Proof.
  unfold extractTags, FindAllSubmatch.
  pose proof (allMatches_genTagRe_shape (S (String.length b)) b) as Hall.
  revert Hall. generalize (allMatches (S (String.length b)) genTagRe b).
  intros ms Hms.
  set (P := fun (tag : string) (values : list string) =>
    tag ≠ "" ∧ allBytes notSpaceOrEq tag = true
    ∧ Forall (fun v => strings.ContainsByte v ","%char = false
                       ∧ allBytes notSpace v = true) values).
  assert (∀ tags : gmap string (list string),
            (∀ t vs, tags !! t = Some vs → P t vs) →
            ∀ t vs, foldl (extractTags_step requestedTags) tags ms !! t = Some vs →
                    P t vs) as Hfold.
  { induction Hms as [|m ms Hm Hms IH]; intros tags Htags; [done|].
    cbn [foldl]. apply IH. intros t vs. rewrite extractTags_step_lookup.
    destruct Hm as (whole & tag' & values' & -> & _ & Hwf).
    case_decide as Hd; [|by apply Htags]. destruct Hd as [-> _].
    intros [= <-].
    unfold wfLine in Hwf. simpl in Hwf.
    apply andb_true_iff in Hwf as [Hwf Hvalb].
    apply andb_true_iff in Hwf as [Hwf _].
    apply andb_true_iff in Hwf as [Htag Htagb].
    apply negb_true_iff, String.eqb_neq in Htag.
    split_and!; [done..|].
    apply Forall_app. split.
    - destruct (tags !! t) as [old|] eqn:Hold; [|constructor].
      by destruct (Htags t old Hold) as (_ & _ & ?).
    - apply Forall_forall. intros v Hv. split.
      + by eapply Split_pieces.
      + by eapply Split_allBytes. }
  apply Hfold. intros t vs. by rewrite lookup_empty.
Qed.

Lemma extractTags_wellformed_witness :
  "client-gen" ≠ "" ∧ allBytes notSpaceOrEq "client-gen" = true
  ∧ Forall (fun v => strings.ContainsByte v ","%char = false
                     ∧ allBytes notSpace v = true) ["deepcopy"; ""; "listers"].
Proof.
  apply (extractTags_wellformed (annotation "client-gen" "deepcopy,,listers")
           {[ "client-gen" := true ]}).
  by vm_compute.
Defined.

Lemma ContainsByte_append (s1 s2 : string) (c : ascii) :
  strings.ContainsByte (s1 +:+ s2) c
  = strings.ContainsByte s1 c || strings.ContainsByte s2 c.
Proof.
  induction s1 as [|a s1 IH]; [done|].
  rewrite append_cons. simpl. by rewrite IH, orb_assoc.
Qed.

(** The bytes every annotation has. *)
Lemma annotationText_bytes (whole tag values : string) (c : ascii) :
  annotationText whole tag values →
  c ∈ ["/"; "+"; "k"; "8"; "s"; ":"; "="; "010"]%char →
  strings.ContainsByte whole c = true.
Proof.
  intros (ws & ws' & _ & _ & ->) Hc.
  rewrite !ContainsByte_append.
  repeat (apply elem_of_cons in Hc as [->|Hc];
          [simpl; by rewrite ?orb_true_r|]).
  by apply elem_of_nil in Hc.
Qed.

(** X3. Content that lacks one of the bytes an annotation is made of has
    no match, and [extractTags] returns the empty mapping for it: so an
    annotation on a last line without its newline, or a tag without
    [=value], is not seen. *)
Theorem extractTags_needs_annotation_bytes (b : string)
    (requestedTags : gmap string bool) (c : ascii) :
  c ∈ ["/"; "+"; "k"; "8"; "s"; ":"; "="; "010"]%char →
  strings.ContainsByte b c = false →
  FindAllSubmatch genTagRe b = [] ∧ extractTags b requestedTags = ∅.
Proof.
  intros Hc Hb.
  assert (FindAllSubmatch genTagRe b = []) as Hnone.
  { rewrite FindAllSubmatch_unfold by (rewrite genTagRe_minWidth; lia).
    destruct (search genTagRe b) as [[m rest]|] eqn:Hs; [|done].
    apply search_genTagRe_inv in Hs
      as (before & whole & tag & values & -> & _ & Htext & _).
    rewrite !ContainsByte_append in Hb.
    rewrite (annotationText_bytes whole tag values c Htext Hc) in Hb.
    by rewrite orb_true_r in Hb. }
  split; [done|]. unfold extractTags. by rewrite Hnone.
Qed.

Lemma extractTags_needs_annotation_bytes_witness :
  FindAllSubmatch genTagRe "// +k8s:deepcopy-gen=package" = []
  ∧ extractTags "// +k8s:deepcopy-gen=package" {[ "deepcopy-gen" := true ]} = ∅.
Proof.
  apply (extractTags_needs_annotation_bytes _ _ "010"%char).
  - repeat constructor.
  - reflexivity.
Defined.

(** X4. The list [extractTags] returns for a tag depends on
    [requestedTags] only through whether the tag is one of its keys: the
    boolean stored under the key and the other keys play no part. *)
Theorem extractTags_requested_by_key (b : string)
    (requestedTags requestedTags' : gmap string bool) (t : string) :
  (is_Some (requestedTags !! t) ↔ is_Some (requestedTags' !! t)) →
  extractTags b requestedTags !! t = extractTags b requestedTags' !! t.
Proof.
  intros Hkey. unfold extractTags.
  destruct (requestedTags !! t) as [x|] eqn:Hreq.
  - assert (is_Some (requestedTags' !! t)) as Hreq' by (apply Hkey; eauto).
    rewrite !extractTags_fold_values by (by rewrite ?Hreq; eauto). done.
  - assert (requestedTags' !! t = None) as Hreq'.
    { apply eq_None_not_Some. intros H%Hkey. by destruct H. }
    transitivity (@None (list string)); [|symmetry];
      apply eq_None_not_Some; intros [H|H]%extractTags_fold_requested;
      rewrite ?lookup_empty, ?Hreq, ?Hreq' in H; by destruct H.
Qed.

Lemma extractTags_requested_by_key_witness :
  extractTags (annotation "t" "a" +:+ annotation "u" "b")
    {[ "t" := false ]} !! "t"
  = extractTags (annotation "t" "a" +:+ annotation "u" "b")
      {[ "t" := true; "u" := true ]} !! "t".
Proof.
  apply extractTags_requested_by_key.
  split; intros _; eexists; vm_compute; reflexivity.
Defined.

(** ** The index of a walk *)

(** X5. After the closure has scanned a readable source file, the entry
    for (tag, value, pkg) is set exactly when pkg is the file's directory
    and the file carries the pair; every other entry is as before. *)
Theorem scan_sets_own_pairs (v : Vendorer) (requestedTags : gmap string bool)
    (path b : string) (st : walkState) (tag value pkg : string) :
  skipped v (filepath.Dir path) = false →
  strings.HasSuffix path ".go" = true →
  strings.HasSuffix path "_test.go" = false →
  lookup3 (tagsValuesPkgs (walkFn v requestedTags path (File (inr b)) None st).2)
    tag value pkg
  = if decide (pkg = filepath.Dir path
               ∧ value ∈ default [] (extractTags b requestedTags !! tag))
    then Some true
    else lookup3 (tagsValuesPkgs st) tag value pkg.
Proof.
  intros Hskip Hgo Htest. rewrite walkFn_read by done.
  cbn [snd tagsValuesPkgs]. apply addTags_lookup3.
Qed.

Lemma scan_sets_own_pairs_witness :
  lookup3
    (tagsValuesPkgs
       (walkFn exampleVendorer {[ "client-gen" := true ]} "pkg/api/types.go"
          (File (inr (annotation "client-gen" "true,listers"))) None emptyState).2)
    "client-gen" "listers" "pkg/api"
  = if decide ("pkg/api" = filepath.Dir "pkg/api/types.go"
               ∧ "listers" ∈ default []
                   (extractTags (annotation "client-gen" "true,listers")
                      {[ "client-gen" := true ]} !! "client-gen"))
    then Some true
    else lookup3 (tagsValuesPkgs emptyState) "client-gen" "listers" "pkg/api".
Proof.
  apply (scan_sets_own_pairs exampleVendorer {[ "client-gen" := true ]}
           "pkg/api/types.go"); reflexivity.
Defined.

Lemma walkFn_walkSound (v : Vendorer) (requestedTags : gmap string bool)
    path info err st :
  walkSound v requestedTags st →
  walkSound v requestedTags (walkFn v requestedTags path info err st).2.
Proof.
  intros [Hidx Htr]. unfold walkFn. destruct err; [done|].
  destruct (existsb _ _) eqn:Hskip; [done|].
  destruct (negb _ || _); [done|].
  assert (Forall (fun ev => ∃ path, ev = ReadFileEv path
                    ∧ skipped v (filepath.Dir path) = false)
            (trace st ++ [ReadFileEv path])) as Htr'.
  { apply Forall_app. split; [done|]. repeat constructor. by exists path. }
  assert (∀ tag value pkg b,
     lookup3 (tagsValuesPkgs st) tag value pkg = Some b →
     b = true ∧ is_Some (requestedTags !! tag) ∧ skipped v pkg = false
     ∧ ∃ path', ReadFileEv path' ∈ trace st ++ [ReadFileEv path]
                ∧ filepath.Dir path' = pkg) as Hold.
  { intros tag value pkg b Hb.
    destruct (Hidx tag value pkg b Hb) as (? & ? & ? & path' & ? & ?).
    split_and!; [done..|]. exists path'. split; [|done].
    apply elem_of_app. by left. }
  destruct (ioutil.ReadFile info) as [errno|b]; cbn [snd]; split;
    cbn [tagsValuesPkgs trace]; [exact Hold|exact Htr'| |exact Htr'].
  intros tag value pkg x. rewrite addTags_lookup3.
  case_decide as Hd; [|by apply Hold].
  destruct Hd as [-> Hin]. intros [= <-]. split_and!; [done| |done|].
  - destruct (extractTags b requestedTags !! tag) as [values|] eqn:Htag;
      [|by apply elem_of_nil in Hin].
    assert (is_Some (extractTags b requestedTags !! tag)) as Hsome by eauto.
    apply extractTags_fold_requested in Hsome as [Hsome|Hsome]; [|done].
    rewrite lookup_empty in Hsome. by destruct Hsome.
  - exists path. split; [|done]. apply elem_of_app. right. by left.
Qed.

Lemma runWalk_walkSound (v : Vendorer) (root : string)
    (requestedTags : gmap string bool) (fs : fsnode) :
  walkSound v requestedTags (runWalk v root requestedTags fs).2.
Proof.
  unfold runWalk.
  apply (Walk_Inv (walkFn v requestedTags) (walkSound v requestedTags)).
  - intros path info err st. apply walkFn_walkSound.
  - split; [|constructor]. intros tag value pkg b.
    unfold lookup3. simpl. by rewrite lookup_empty.
Qed.

Lemma findGeneratorTags_Some (v : Vendorer) (root : string)
    (requestedTags : gmap string bool) (fs : fsnode)
    (m : generatorTagsValuesPkgsMap) (err : option error) :
  findGeneratorTags v root requestedTags fs = (Some m, err) →
  m = tagsValuesPkgs (runWalk v root requestedTags fs).2 ∧ err = None.
Proof.
  unfold findGeneratorTags.
  destruct (runWalk v root requestedTags fs) as [[e|] st]; [done|].
  by intros [= <- <-].
Qed.

(** X6. Every entry of the index [findGeneratorTags] returns is [true],
    stands under a requested tag, and names the directory of a file the
    walk read; that directory matches no skip pattern. *)
Theorem index_entries_come_from_reads (v : Vendorer) (root : string)
    (requestedTags : gmap string bool) (fs : fsnode)
    (m : generatorTagsValuesPkgsMap) (tag value pkg : string) (b : bool) :
  findGeneratorTags v root requestedTags fs = (Some m, None) →
  lookup3 m tag value pkg = Some b →
  b = true
  ∧ is_Some (requestedTags !! tag)
  ∧ skipped v pkg = false
  ∧ ∃ path, ReadFileEv path ∈ trace (runWalk v root requestedTags fs).2
            ∧ filepath.Dir path = pkg
            ∧ strings.HasSuffix path ".go" = true
            ∧ strings.HasSuffix path "_test.go" = false.
Proof.
  intros [-> _]%findGeneratorTags_Some Hb.
  destruct (runWalk_walkSound v root requestedTags fs) as [Hidx _].
  destruct (Hidx tag value pkg b Hb) as (? & ? & ? & path & Hin & Hdir).
  split_and!; [done..|]. exists path. split_and!; [done..| |].
  - assert (Forall goRead (trace (runWalk v root requestedTags fs).2)) as Hgo.
    { unfold runWalk.
      apply (Walk_Inv (walkFn v requestedTags)
               (fun st => Forall goRead (trace st))); [|done].
      intros ????. apply walkFn_trace. }
    rewrite Forall_forall in Hgo.
    destruct (Hgo _ Hin) as (path' & [= <-] & ? & ?). done.
  - assert (Forall goRead (trace (runWalk v root requestedTags fs).2)) as Hgo.
    { unfold runWalk.
      apply (Walk_Inv (walkFn v requestedTags)
               (fun st => Forall goRead (trace st))); [|done].
      intros ????. apply walkFn_trace. }
    rewrite Forall_forall in Hgo.
    destruct (Hgo _ Hin) as (path' & [= <-] & ? & ?). done.
Qed.

(** X7. During a walk no file is read whose directory matches a skip
    pattern. *)
Theorem no_read_in_skipped_package (v : Vendorer) (root : string)
    (requestedTags : gmap string bool) (fs : fsnode) (path : string) :
  ReadFileEv path ∈ trace (runWalk v root requestedTags fs).2 →
  skipped v (filepath.Dir path) = false.
Proof.
  intros Hin.
  destruct (runWalk_walkSound v root requestedTags fs) as [_ Htr].
  rewrite Forall_forall in Htr.
  by destruct (Htr _ Hin) as (path' & [= <-] & ?).
Qed.

Lemma index_entries_come_from_reads_witness :
  true = true
  ∧ is_Some (({[ "client-gen" := true ]} : gmap string bool) !! "client-gen")
  ∧ skipped exampleVendorer "a" = false
  ∧ ∃ path,
      ReadFileEv path
        ∈ trace (runWalk exampleVendorer "." {[ "client-gen" := true ]} exampleTree).2
      ∧ filepath.Dir path = "a"
      ∧ strings.HasSuffix path ".go" = true
      ∧ strings.HasSuffix path "_test.go" = false.
Proof.
  apply (index_entries_come_from_reads exampleVendorer "."
           {[ "client-gen" := true ]} exampleTree
           (tagsValuesPkgs
              (runWalk exampleVendorer "." {[ "client-gen" := true ]} exampleTree).2)
           "client-gen" "listers" "a" true).
  - vm_compute. reflexivity.
  - vm_compute. reflexivity.
Defined.

Lemma no_read_in_skipped_package_witness :
  skipped exampleVendorer (filepath.Dir "b/z.go") = false.
Proof.
  apply (no_read_in_skipped_package exampleVendorer "."
           {[ "client-gen" := true ]} exampleTree "b/z.go").
  vm_compute. repeat constructor.
Defined.

Lemma insertAll_full (pkg : string) (values : list string)
    (subMap : gmap string (gmap string bool)) :
  values ≠ [] →
  (∀ value subSet, subMap !! value = Some subSet → subSet ≠ ∅) →
  insertAll pkg values subMap ≠ ∅
  ∧ ∀ value subSet,
      insertAll pkg values subMap !! value = Some subSet → subSet ≠ ∅.
Proof.
  intros Hvalues Hsub. split.
  - destruct values as [|v0 values]; [done|].
    intros Hempty.
    assert (insertAll pkg (v0 :: values) subMap !! v0 = None) as Hnone.
    { by rewrite Hempty, lookup_empty. }
    rewrite insertAll_lookup, decide_True in Hnone by (by left). done.
  - intros value subSet. rewrite insertAll_lookup.
    case_decide; [|by apply Hsub].
    intros [= <-]. apply insert_non_empty.
Qed.

Lemma addTags_indexFull (pkg : string) (tags : gmap string (list string))
    (m : generatorTagsValuesPkgsMap) :
  (∀ tag values, tags !! tag = Some values → values ≠ []) →
  indexFull m → indexFull (addTags pkg tags m).
Proof.
  intros Htags Hm tag subMap. rewrite addTags_lookup.
  destruct (tags !! tag) as [values|] eqn:Htag; [|by apply Hm].
  intros [= <-]. apply insertAll_full; [by eapply Htags|].
  destruct (m !! tag) as [old|] eqn:Hold; simpl.
  - by apply (Hm tag old).
  - intros value subSet. by rewrite lookup_empty.
Qed.

Lemma runWalk_indexFull (v : Vendorer) (root : string)
    (requestedTags : gmap string bool) (fs : fsnode) :
  indexFull (tagsValuesPkgs (runWalk v root requestedTags fs).2).
Proof.
  unfold runWalk.
  apply (Walk_Inv (walkFn v requestedTags)
           (fun st => indexFull (tagsValuesPkgs st))).
  - intros path info err st Hst. unfold walkFn. destruct err; [done|].
    destruct (existsb _ _); [done|]. destruct (negb _ || _); [done|].
    destruct (ioutil.ReadFile info) as [errno|b]; [done|].
    cbn [snd tagsValuesPkgs]. apply addTags_indexFull; [|done].
    intros tag values. apply extractTags_fold_nonempty.
    intros t' l'. by rewrite lookup_empty.
  - intros tag subMap. simpl. by rewrite lookup_empty.
Qed.

Lemma length_rangeKeys (subSet : gmap string bool) :
  length (rangeKeys subSet) = size subSet.
Proof. unfold rangeKeys. by rewrite length_fmap, length_map_to_list. Qed.

(** X8. In the index [findGeneratorTags] returns no tag has an empty map
    and no (tag, value) pair an empty package set, so [flattened] keeps
    every pair of it, with a leaf as long as the set is large. *)
Theorem flattened_keeps_walk_pairs (v : Vendorer) (root : string)
    (requestedTags : gmap string bool) (fs : fsnode)
    (m : generatorTagsValuesPkgsMap) :
  findGeneratorTags v root requestedTags fs = (Some m, None) →
  (∀ tag subMap, m !! tag = Some subMap → subMap ≠ ∅)
  ∧ (∀ tag value subSet,
       pkgsOf m tag value = Some subSet →
       subSet ≠ ∅
       ∧ ∃ leaf,
           flattened m !! tag ≫= (fun subMap => subMap !! value) = Some leaf
           ∧ leaf ≠ [] ∧ length leaf = size subSet).
Proof.
  intros [-> _]%findGeneratorTags_Some.
  pose proof (runWalk_indexFull v root requestedTags fs) as Hfull.
  set (m := tagsValuesPkgs (runWalk v root requestedTags fs).2) in *.
  split.
  - intros tag subMap Htag. by destruct (Hfull tag subMap Htag).
  - intros tag value subSet Hpair.
    assert (subSet ≠ ∅) as Hne.
    { unfold pkgsOf in Hpair. destruct (m !! tag) as [subMap|] eqn:Htag; [|done].
      destruct (Hfull tag subMap Htag) as [_ Hsets]. by eapply Hsets. }
    split; [done|].
    rewrite flattened_lookup. fold (pkgsOf m tag value). rewrite Hpair. simpl.
    unfold flattenedLeaf.
    destruct (rangeKeys subSet) as [|p ps] eqn:Hkeys.
    + exfalso. apply Hne. apply map_size_empty_inv.
      by rewrite <- length_rangeKeys, Hkeys.
    + eexists. split_and!; [done| |].
      * intros Hnil. apply (f_equal length) in Hnil.
        unfold sort_Strings in Hnil.
        rewrite (Permutation_length (merge_sort_Permutation _ _)) in Hnil.
        done.
      * unfold sort_Strings.
        rewrite (Permutation_length (merge_sort_Permutation _ _)).
        by rewrite <- Hkeys, length_rangeKeys.
Qed.

Lemma flattened_keeps_walk_pairs_witness :
  ∃ leaf,
    flattened
      (tagsValuesPkgs
         (runWalk exampleVendorer "." {[ "client-gen" := true ]} exampleTree).2)
      !! "client-gen" ≫= (fun subMap => subMap !! "true") = Some leaf
    ∧ leaf ≠ [] ∧ length leaf = 3.
Proof.
  destruct (flattened_keeps_walk_pairs exampleVendorer "."
              {[ "client-gen" := true ]} exampleTree
              (tagsValuesPkgs
                 (runWalk exampleVendorer "." {[ "client-gen" := true ]}
                    exampleTree).2)) as [_ Hpairs].
  { vm_compute. reflexivity. }
  destruct (Hpairs "client-gen" "true"
              {[ "." := true; "a" := true; "b" := true ]}) as [_ Hleaf].
  { vm_compute. reflexivity. }
  exact Hleaf.
Defined.

(** X9. [flattened] keeps every tag, also one whose map is empty, but a
    pair whose package set is empty gets no key: the slice is only
    created by the first [append]. *)
Theorem flattened_drops_empty_set (m : generatorTagsValuesPkgsMap)
    (tag value : string) :
  (is_Some (flattened m !! tag) ↔ is_Some (m !! tag))
  ∧ (pkgsOf m tag value = Some ∅ →
     ∃ flat, flattened m !! tag = Some flat ∧ flat !! value = None).
Proof.
  split.
  - unfold flattened. rewrite lookup_fmap. by rewrite fmap_is_Some.
  - unfold pkgsOf, flattened. rewrite lookup_fmap.
    destruct (m !! tag) as [subMap|]; [|done]. simpl. intros Hempty.
    eexists. split; [done|]. by rewrite lookup_omap, Hempty.
Qed.

Lemma flattened_drops_empty_set_witness :
  ∃ flat,
    flattened {[ "client-gen" := {[ "true" := ∅ ]} ]} !! "client-gen" = Some flat
    ∧ flat !! "true" = None.
Proof.
  apply (proj2 (flattened_drops_empty_set
                  {[ "client-gen" := {[ "true" := ∅ ]} ]} "client-gen" "true")).
  vm_compute. reflexivity.
Defined.

(** ** Order and repetition of scans *)

(** X10. The index is the same whichever of two readable source files
    the closure scans first, and so is the flattened output. *)
Theorem scan_order_irrelevant (v : Vendorer) (requestedTags : gmap string bool)
    (path1 path2 b1 b2 : string) (st : walkState) :
  skipped v (filepath.Dir path1) = false →
  strings.HasSuffix path1 ".go" = true →
  strings.HasSuffix path1 "_test.go" = false →
  skipped v (filepath.Dir path2) = false →
  strings.HasSuffix path2 ".go" = true →
  strings.HasSuffix path2 "_test.go" = false →
  let scan path b st := (walkFn v requestedTags path (File (inr b)) None st).2 in
  tagsValuesPkgs (scan path2 b2 (scan path1 b1 st))
  = tagsValuesPkgs (scan path1 b1 (scan path2 b2 st)).
Proof.
  intros Hskip1 Hgo1 Htest1 Hskip2 Hgo2 Htest2 scan. subst scan. cbv beta.
  rewrite (walkFn_read v requestedTags path1 b1 st) by done.
  rewrite (walkFn_read v requestedTags path2 b2 st) by done.
  rewrite !walkFn_read by done. cbn [snd tagsValuesPkgs].
  apply addTags_comm.
Qed.

Lemma scan_order_irrelevant_witness :
  let scan path b st :=
    (walkFn exampleVendorer {[ "client-gen" := true ]} path (File (inr b)) None st).2 in
  tagsValuesPkgs
    (scan "b/z.go" (annotation "client-gen" "true")
       (scan "a/x.go" (annotation "client-gen" "true,listers") emptyState))
  = tagsValuesPkgs
      (scan "a/x.go" (annotation "client-gen" "true,listers")
         (scan "b/z.go" (annotation "client-gen" "true") emptyState)).
Proof.
  apply (scan_order_irrelevant exampleVendorer {[ "client-gen" := true ]}
           "a/x.go" "b/z.go"); reflexivity.
Defined.

(** X11. The loop over the map [extractTags] returns gives the same
    index for every order in which [range] may yield its tags. *)
Theorem range_order_irrelevant (pkg : string) (tags : gmap string (list string))
    (m : generatorTagsValuesPkgsMap) (order1 order2 : list (string * list string)) :
  order1 ≡ₚ map_to_list tags → order2 ≡ₚ map_to_list tags →
  foldl (addValues pkg) m order1 = foldl (addValues pkg) m order2.
Proof. intros H1 H2. by rewrite (addTags_order _ _ _ _ H1), (addTags_order _ _ _ _ H2). Qed.

Lemma range_order_irrelevant_witness :
  let tags : gmap string (list string) :=
    {[ "client-gen" := ["true"; "listers"]; "deepcopy-gen" := ["package"] ]} in
  foldl (addValues "pkg/api") ∅ (reverse (map_to_list tags))
  = foldl (addValues "pkg/api") ∅ (map_to_list tags).
Proof.
  intros tags. apply (range_order_irrelevant "pkg/api" tags).
  - apply reverse_Permutation.
  - reflexivity.
Defined.

(** X12. Scanning a file again, or another file of the same directory
    with the same tags, changes nothing in the index. *)
Theorem rescan_changes_nothing (v : Vendorer) (requestedTags : gmap string bool)
    (path1 path2 b1 b2 : string) (st : walkState) :
  filepath.Dir path2 = filepath.Dir path1 →
  extractTags b2 requestedTags = extractTags b1 requestedTags →
  skipped v (filepath.Dir path1) = false →
  strings.HasSuffix path1 ".go" = true →
  strings.HasSuffix path1 "_test.go" = false →
  strings.HasSuffix path2 ".go" = true →
  strings.HasSuffix path2 "_test.go" = false →
  let st1 := (walkFn v requestedTags path1 (File (inr b1)) None st).2 in
  tagsValuesPkgs (walkFn v requestedTags path2 (File (inr b2)) None st1).2
  = tagsValuesPkgs st1.
Proof.
  intros Hdir Htags Hskip Hgo1 Htest1 Hgo2 Htest2 st1. subst st1.
  rewrite (walkFn_read v requestedTags path1 b1 st) by done.
  rewrite walkFn_read by (by rewrite ?Hdir). cbn [snd tagsValuesPkgs].
  rewrite Hdir, Htags. apply addTags_idemp.
Qed.

Lemma rescan_changes_nothing_witness :
  let st1 := (walkFn exampleVendorer {[ "client-gen" := true ]} "a/x.go"
                (File (inr (annotation "client-gen" "true"))) None emptyState).2 in
  tagsValuesPkgs
    (walkFn exampleVendorer {[ "client-gen" := true ]} "a/y.go"
       (File (inr (annotation "client-gen" "true" +:+ annotation "other" "x")))
       None st1).2
  = tagsValuesPkgs st1.
Proof.
  apply (rescan_changes_nothing exampleVendorer {[ "client-gen" := true ]}
           "a/x.go" "a/y.go"); reflexivity.
Defined.

(** ** Edges of the walk *)

(** X13. When the directory of the root itself matches a skip pattern
    (for the root [.] that is [.]), the walk reads nothing and
    [findGeneratorTags] returns the empty index without an error. *)
Theorem skipped_root_gives_empty_index (v : Vendorer) (root : string)
    (requestedTags : gmap string bool) (fs : fsnode) :
  skipped v (filepath.Dir root) = true →
  (∀ errno, fs ≠ NoStat errno) →
  (∀ errno entries, fs ≠ Directory (Some errno) entries) →
  findGeneratorTags v root requestedTags fs = (Some ∅, None)
  ∧ trace (runWalk v root requestedTags fs).2 = [].
Proof.
  intros Hskip Hstat Hlist. unfold findGeneratorTags, runWalk, filepath.Walk.
  destruct fs as [errno|contents|[errno|] entries].
  - by destruct (Hstat errno).
  - rewrite walk_not_Directory, walkFn_skipped by done. done.
  - by destruct (Hlist errno entries).
  - rewrite walk_Directory.
    change (PathError <$> None) with (@None error).
    rewrite walkFn_skipped by done. done.
Qed.

Lemma skipped_root_gives_empty_index_witness :
  let v := {| cfg := cfg exampleVendorer; dryRun := false;
              skippedK8sCodegenPaths := [fun pkg => String.eqb pkg "."] |} in
  findGeneratorTags v "." {[ "client-gen" := true ]} exampleTree = (Some ∅, None)
  ∧ trace (runWalk v "." {[ "client-gen" := true ]} exampleTree).2 = [].
Proof.
  intros v. apply skipped_root_gives_empty_index; [reflexivity|done|done].
Defined.

(** X14. Inside a directory that matches a skip pattern the entries are
    still stat'ed: after sub-directories that could be listed, an entry
    whose [Lstat] fails ends the walk with that error. *)
Theorem lstat_error_in_skipped_directory (v : Vendorer)
    (requestedTags : gmap string bool) (path : string)
    (before after : list (string * fsnode)) (name : string) (errno : nat)
    (st : walkState) :
  skipped v path = true →
  filepath.cleanDir path = true →
  Forall (fun entry => filepath.hasSlash entry.1 = false
                       ∧ ∃ sub, entry.2 = Directory None sub) before →
  filepath.walkEntries (walkFn v requestedTags) path
    (before ++ (name, NoStat errno) :: after) st
  = (Some (PathError errno), st).
Proof.
  intros Hskip Hclean Hbefore.
  induction Hbefore as [|[name' info'] before [Hname [sub Hsub]] _ IH].
  - cbn [app filepath.walkEntries]. rewrite walkFn_err. by rewrite decide_False.
  - simpl in Hname, Hsub. subst info'.
    cbn [app filepath.walkEntries]. rewrite walk_Directory.
    change (PathError <$> None) with (@None error).
    rewrite walkFn_skipped by (by rewrite Dir_Join). simpl. exact IH.
Qed.

Lemma lstat_error_in_skipped_directory_witness :
  filepath.walkEntries (walkFn exampleVendorer {[ "client-gen" := true ]}) "b/skip"
    ([("d", Directory None [])] ++ ("gone", NoStat os.ENOENT)
       :: [("s.go", File (inr ""))]) emptyState
  = (Some (PathError os.ENOENT), emptyState).
Proof.
  apply lstat_error_in_skipped_directory; [reflexivity..|].
  repeat constructor. by eexists.
Defined.

(** X15. The closure does not ask whether a path is a directory: a
    directory that is not skipped and is named like a non-test Go source
    is read as a file, which fails, and the walk ends with that error. *)
Theorem directory_named_like_source (v : Vendorer)
    (requestedTags : gmap string bool) (path : string)
    (entries : list (string * fsnode)) (st : walkState) :
  skipped v (filepath.Dir path) = false →
  strings.HasSuffix path ".go" = true →
  strings.HasSuffix path "_test.go" = false →
  filepath.walk (walkFn v requestedTags) path (Directory None entries) st
  = (Some (PathError os.EISDIR),
     {| tagsValuesPkgs := tagsValuesPkgs st;
        trace := trace st ++ [ReadFileEv path] |}).
Proof.
  intros Hskip Hgo Htest. rewrite walk_Directory.
  change (PathError <$> None) with (@None error).
  by rewrite (walkFn_read_error v requestedTags path _ st os.EISDIR).
Qed.

Lemma directory_named_like_source_witness :
  findGeneratorTags exampleVendorer "." {[ "client-gen" := true ]}
    (Directory None
       [ ("vendor.go", Directory None []);
         ("z.go", File (inr (annotation "client-gen" "true"))) ])
  = (None, Some (PathError os.EISDIR)).
Proof.
  pose proof (directory_named_like_source exampleVendorer
                {[ "client-gen" := true ]} "vendor.go" [] emptyState
                eq_refl eq_refl eq_refl) as Hdir.
  unfold findGeneratorTags, runWalk, filepath.Walk.
  rewrite walk_Directory. change (PathError <$> None) with (@None error).
  change (walkFn exampleVendorer {[ "client-gen" := true ]} "."
            (Directory None [("vendor.go", Directory None []);
                             ("z.go", File (inr (annotation "client-gen" "true")))])
            None {| tagsValuesPkgs := ∅; trace := [] |})
    with (@None error, emptyState).
  cbn [filepath.walkEntries].
  change (filepath.Join "." "vendor.go") with "vendor.go".
  rewrite Hdir. reflexivity.
Defined.

(** ** The generated document *)

Lemma requestedTags_fold (tags : list string) (m : gmap string bool) (t : string) :
  foldl (fun m tag => <[tag := true]> m) m tags !! t
  = if decide (t ∈ tags) then Some true else m !! t.
Proof.
  revert m. induction tags as [|tag tags IH]; intros m; cbn [foldl].
  { by rewrite decide_False by apply not_elem_of_nil. }
  rewrite IH. destruct (decide (t ∈ tags)) as [Hin|Hnin].
  - by rewrite decide_True by (by right).
  - destruct (decide (tag = t)) as [->|Hne].
    + rewrite decide_True by (by left). by rewrite lookup_insert_eq.
    + rewrite decide_False by (by intros [?|?]%elem_of_cons).
      by rewrite lookup_insert_ne.
Qed.

Lemma configuredTags_key (v : Vendorer) (t : string) :
  is_Some (configuredTags v !! t) ↔ t ∈ K8sCodegenTags (cfg v).
Proof.
  unfold configuredTags. rewrite requestedTags_fold, lookup_empty.
  case_decide as Hin; split; [done|eauto|by intros [? ?]|done].
Qed.

(** X18. The map of requested tags that [walkGenerated] builds has
    exactly the configured tags as keys, each with [true]; a tag listed
    twice is one key. *)
Theorem configuredTags_lookup (v : Vendorer) (t : string) :
  configuredTags v !! t
  = if decide (t ∈ K8sCodegenTags (cfg v)) then Some true else None.
Proof. unfold configuredTags. by rewrite requestedTags_fold, lookup_empty. Qed.

Lemma findGeneratorTags_ok (v : Vendorer) (root : string)
    (requestedTags : gmap string bool) (fs : fsnode)
    (m : option generatorTagsValuesPkgsMap) :
  findGeneratorTags v root requestedTags fs = (m, None) →
  m = Some (tagsValuesPkgs (runWalk v root requestedTags fs).2).
Proof.
  unfold findGeneratorTags.
  destruct (runWalk v root requestedTags fs) as [[e|] st]; [done|].
  by intros [= <-].
Qed.

Lemma runWalk_trace_reads (v : Vendorer) (root : string)
    (requestedTags : gmap string bool) (fs : fsnode) :
  Forall (fun ev => isWriteFileEv ev = false)
    (trace (runWalk v root requestedTags fs).2).
Proof.
  eapply Forall_impl.
  - apply (Walk_Inv (walkFn v requestedTags)
             (fun st => Forall goRead (trace st))); [|done].
    intros path info err st. apply walkFn_trace.
  - by intros ev (path & -> & _).
Qed.

(** X16. [walkGenerated] ends in one of three ways: with no output file
    configured it returns [(false, nil)] and does nothing; or it returns
    [(false, err)] with an error and has not called [writeFile]; or its
    last two actions are the [os.Stat] of the output file and one call of
    [writeFile], on the document built from the index of the walk, with
    [fileExists] telling whether the stat found the file and with the
    [Vendorer]'s [dryRun], and it returns what [writeFile] returns. *)
Theorem walkGenerated_outcome
    (writeFile : string → build.File → string → bool → bool → bool * option error)
    (v : Vendorer) (w : world) :
  let path := K8sCodegenBzlFile (cfg v) in
  let res := (walkGenerated writeFile v w).1 in
  let tr := (walkGenerated writeFile v w).2 in
  (path = "" ∧ res = (false, None) ∧ tr = [])
  ∨ (path ≠ ""
     ∧ (∃ err, res = (false, Some err))
     ∧ Forall (fun ev => isWriteFileEv ev = false) tr)
  ∨ (path ≠ ""
     ∧ ∃ idx tr' bytes,
         findGeneratorTags v "." (configuredTags v) (tree w) = (Some idx, None)
         ∧ Forall (fun ev => isWriteFileEv ev = false) tr'
         ∧ tr = tr' ++ [StatEv path;
                        WriteFileEv path (document v idx) bytes
                          (bool_decide (stat w path = None)) (dryRun v)]
         ∧ res = writeFile path (document v idx) bytes
                   (bool_decide (stat w path = None)) (dryRun v)).
Proof.
  intros path res tr. subst res tr. unfold walkGenerated.
  fold path (configuredTags v).
  destruct (String.eqb_spec path "") as [Hpath|Hpath]; [by left|].
  right.
  pose proof (runWalk_trace_reads v "." (configuredTags v) (tree w)) as Hreads.
  set (tr0 := trace (runWalk v "." (configuredTags v) (tree w)).2) in *.
  destruct (findGeneratorTags v "." (configuredTags v) (tree w))
    as [m [err|]] eqn:Hfind.
  { left. split; [done|]. split; [by eexists|done]. }
  apply findGeneratorTags_ok in Hfind as Hm. subst m.
  cbn [default from_option id].
  set (idx := tagsValuesPkgs (runWalk v "." (configuredTags v) (tree w)).2) in *.
  rewrite document_Path. fold path.
  set (read := if String.eqb (K8sCodegenBoilerplateFile (cfg v)) "" then _ else _).
  assert (Forall (fun ev => isWriteFileEv ev = false) read.2) as Hread.
  { subst read. destruct (String.eqb _ ""); [done|].
    apply Forall_app. split; [done|]. by repeat constructor. }
  destruct read as [[errno|bytes] tr1]; cbn [snd] in Hread.
  { left. split; [done|]. split; [by eexists|done]. }
  destruct (stat w path) as [errno|] eqn:Hstat; cbn [fmap option_fmap option_map].
  - destruct (Nat.eqb errno os.ENOENT) eqn:Herrno.
    + right. split; [done|]. exists idx, tr1, bytes.
      simpl. rewrite Herrno. simpl.
      split_and!; [done..| |done]. by rewrite <- app_assoc.
    + left. split; [done|]. simpl. rewrite Herrno. simpl.
      split; [by eexists|].
      apply Forall_app. split; [done|]. by repeat constructor.
  - right. split; [done|]. exists idx, tr1, bytes. simpl.
    split_and!; [done..| |done]. by rewrite <- app_assoc.
Qed.

Lemma runWalk_tags_requested (v : Vendorer) (root : string)
    (requestedTags : gmap string bool) (fs : fsnode) (tag : string) :
  is_Some (tagsValuesPkgs (runWalk v root requestedTags fs).2 !! tag) →
  is_Some (requestedTags !! tag).
Proof.
  revert tag. unfold runWalk.
  apply (Walk_Inv (walkFn v requestedTags)
           (fun st => ∀ tag, is_Some (tagsValuesPkgs st !! tag) →
                             is_Some (requestedTags !! tag))).
  - intros path info err st Hst. unfold walkFn. destruct err; [done|].
    destruct (existsb _ _); [done|]. destruct (negb _ || _); [done|].
    destruct (ioutil.ReadFile info) as [errno|b]; [done|].
    cbn [snd tagsValuesPkgs]. intros tag. rewrite addTags_lookup.
    destruct (extractTags b requestedTags !! tag) as [values|] eqn:Htag;
      [|by apply Hst].
    intros _.
    assert (is_Some (extractTags b requestedTags !! tag)) as Hsome by eauto.
    apply extractTags_fold_requested in Hsome as [Hsome|Hsome]; [|done].
    rewrite lookup_empty in Hsome. by destruct Hsome.
  - intros tag. simpl. rewrite lookup_empty. by intros [? ?].
Qed.

Lemma walkGenerated_written
    (writeFile : string → build.File → string → bool → bool → bool * option error)
    (v : Vendorer) (w : world) (ev : event) :
  ev ∈ (walkGenerated writeFile v w).2 → isWriteFileEv ev = true →
  ∃ bytes fileExists,
    ev = WriteFileEv (K8sCodegenBzlFile (cfg v))
           (document v
              (tagsValuesPkgs (runWalk v "." (configuredTags v) (tree w)).2))
           bytes fileExists (dryRun v).
Proof.
  unfold walkGenerated. fold (configuredTags v).
  destruct (String.eqb _ ""); [by intros ?%elem_of_nil|].
  pose proof (runWalk_trace_reads v "." (configuredTags v) (tree w)) as Hreads.
  set (tr0 := trace (runWalk v "." (configuredTags v) (tree w)).2) in *.
  assert (∀ tr, Forall (fun ev => isWriteFileEv ev = false) tr →
                ev ∈ tr → isWriteFileEv ev = true → False) as Hno.
  { intros tr Htr Hin Hw. rewrite Forall_forall in Htr.
    specialize (Htr ev Hin). congruence. }
  destruct (findGeneratorTags v "." (configuredTags v) (tree w))
    as [m [err|]] eqn:Hfind.
  { intros Hin Hw. by destruct (Hno tr0). }
  apply findGeneratorTags_ok in Hfind as Hm. subst m.
  cbn [default from_option id]. rewrite document_Path.
  set (read := if String.eqb (K8sCodegenBoilerplateFile (cfg v)) "" then _ else _).
  assert (Forall (fun ev => isWriteFileEv ev = false) read.2) as Hread.
  { subst read. destruct (String.eqb _ ""); [done|].
    apply Forall_app. split; [done|]. by repeat constructor. }
  destruct read as [[errno|bytes] tr1]; cbn [snd] in Hread.
  { intros Hin Hw. by destruct (Hno tr1). }
  assert (Forall (fun ev => isWriteFileEv ev = false)
            (tr1 ++ [StatEv (K8sCodegenBzlFile (cfg v))])) as Hstat.
  { apply Forall_app. split; [done|]. by repeat constructor. }
  destruct (_ && _).
  - intros Hin Hw. by destruct (Hno _ Hstat).
  - cbn [snd]. intros [Hin| ->%list_elem_of_singleton]%elem_of_app Hw.
    + by destruct (Hno _ Hstat).
    + by eexists _, _.
Qed.

(** X17. The document [walkGenerated] hands to [writeFile] has the three
    declarations [go_prefix], [kazel_configured_tags] and
    [tags_values_pkgs], in this order, under the header comment; the
    first two hold the configured prefix and tags, the third the
    flattened index of the walk, and only configured tags are keys of
    it. *)
Theorem generated_document
    (writeFile : string → build.File → string → bool → bool → bool * option error)
    (v : Vendorer) (w : world) (path : string) (f : build.File)
    (bytes : string) (fileExists dry : bool) :
  WriteFileEv path f bytes fileExists dry ∈ (walkGenerated writeFile v w).2 →
  path = K8sCodegenBzlFile (cfg v) ∧ dry = dryRun v
  ∧ build.Path f = path
  ∧ build.CommentsBefore f = header
  ∧ exprName <$> build.Stmt f
    = ["go_prefix"; "kazel_configured_tags"; "tags_values_pkgs"]
  ∧ ∃ idx,
      findGeneratorTags v "." (configuredTags v) (tree w) = (Some idx, None)
      ∧ exprValue <$> build.Stmt f
        = [StringValue (GoPrefix (cfg v));
           StringsValue (K8sCodegenTags (cfg v));
           TagsValuesPkgsValue (flattened idx)]
      ∧ ∀ tag, is_Some (flattened idx !! tag) → tag ∈ K8sCodegenTags (cfg v).
Proof.
  intros Hin.
  assert (K8sCodegenBzlFile (cfg v) ≠ "") as Hpath.
  { intros Hempty. unfold walkGenerated in Hin.
    rewrite Hempty in Hin. by apply elem_of_nil in Hin. }
  assert (∃ m, findGeneratorTags v "." (configuredTags v) (tree w) = (m, None))
    as [m Hfind].
  { unfold walkGenerated in Hin. fold (configuredTags v) in Hin.
    apply String.eqb_neq in Hpath. rewrite Hpath in Hin.
    destruct (findGeneratorTags v "." (configuredTags v) (tree w))
      as [m [err|]]; [|by eexists].
    pose proof (runWalk_trace_reads v "." (configuredTags v) (tree w)) as Hreads.
    rewrite Forall_forall in Hreads. by specialize (Hreads _ Hin). }
  apply findGeneratorTags_ok in Hfind as Hm. subst m.
  destruct (walkGenerated_written writeFile v w _ Hin eq_refl)
    as (bytes' & fileExists' & [= -> -> _ _ ->]).
  split_and!; try done.
  eexists. split_and!; [done|done|].
  intros tag. unfold flattened. rewrite lookup_fmap, fmap_is_Some.
  intros Htag%runWalk_tags_requested.
  rewrite configuredTags_key in Htag. done.
Qed.

Lemma generated_document_witness :
  let f := document exampleVendorer
             (tagsValuesPkgs
                (runWalk exampleVendorer "." (configuredTags exampleVendorer)
                   exampleTree).2) in
  exprName <$> build.Stmt f
    = ["go_prefix"; "kazel_configured_tags"; "tags_values_pkgs"]
  ∧ build.CommentsBefore f = header.
Proof.
  intros f.
  destruct (generated_document exampleWriteFile exampleVendorer
              {| tree := exampleTree; readFile := fun _ => inl os.ENOENT;
                 stat := fun _ => Some os.ENOENT |}
              "build/kazel_generated.bzl" f "" false false)
    as (_ & _ & _ & Hheader & Hnames & _).
  { vm_compute. repeat constructor. }
  by split.
Defined.

(** ** Every annotation is matched *)

Lemma rmatch_trailing_blanks {R} (k : string → caps → option R) (c : caps)
    (ws rest : string) (res : R) :
  allBytes isSpace ws = true → stopsAt isSpace rest = true →
  k rest c = Some res →
  rmatch (Star isSpace) (fun s' c' => rmatch (Lit "010") k s' c')
    (ws +:+ nl +:+ rest) c = Some res.
Proof.
  intros Hws Hrest Hk.
  induction ws as [|a ws IH].
  - rewrite append_nil_l. unfold nl. rewrite append_cons, append_nil_l.
    rewrite rmatch_Star_cons by done.
    rewrite rmatch_Star_stop by done.
    assert (rmatch (Lit "010") k rest c = None) as ->.
    { destruct rest as [|b rest]; [done|]. simpl in Hrest.
      apply negb_true_iff in Hrest. unfold isSpace in Hrest.
      unfold Lit. cbn [rmatch].
      rewrite (Ascii.eqb_sym "010"%char b).
      destruct (Ascii.eqb b "010"); [|done].
      by rewrite orb_true_r in Hrest. }
    by rewrite rmatch_Lit.
  - simpl in Hws. apply andb_true_iff in Hws as [Ha Hws].
    rewrite append_cons, rmatch_Star_cons by done. by rewrite IH.
Qed.

(** X19. A text of the annotation form, followed by the end of the input
    or by a byte that is not a blank, is matched whole where it starts,
    with its tag and its payload as the groups; the blanks after the
    comment marker and before the newline may be any blanks, newlines
    among them. *)
Theorem annotation_is_matched (whole tag values rest : string) :
  annotationText whole tag values →
  tag ≠ "" → allBytes notSpaceOrEq tag = true →
  values ≠ "" → allBytes notSpace values = true →
  stopsAt isSpace rest = true →
  search genTagRe (whole +:+ rest) = Some ([whole; tag; values], rest).
Proof.
  intros (ws & ws' & Hws & Hws' & ->) Htag Htagb Hval Hvalb Hrest.
  rewrite search_unfold. unfold matchAt.
  set (k := fun rest' c => Some (_ :: _, rest')).
  assert (rmatch genTagRe k
            (("//" +:+ ws +:+ "+k8s:" +:+ tag +:+ "=" +:+ values +:+ ws' +:+ nl)
             +:+ rest) []
          = k rest [(2, values); (1, tag)]) as ->.
  { rewrite !append_assoc. unfold genTagRe.
    rewrite rmatch_LitThen, rmatch_Concat.
    apply rmatch_Star_greedy; [done|done|].
    rewrite rmatch_LitThen, rmatch_Concat, rmatch_Capture.
    apply rmatch_Plus_greedy; [done..|].
    rewrite consumed_append, !rmatch_Concat.
    rewrite append_cons, append_nil_l, rmatch_Lit, rmatch_Capture.
    assert (stopsAt notSpace (ws' +:+ nl +:+ rest) = true) as Hstop.
    { destruct ws' as [|a ws']; [done|]. simpl in Hws' |- *.
      apply andb_true_iff in Hws' as [Ha _]. unfold notSpace. by rewrite Ha. }
    apply rmatch_Plus_greedy; [done..|].
    rewrite consumed_append.
    by apply rmatch_trailing_blanks. }
  subst k. cbv beta. by rewrite consumed_append.
Qed.

Lemma annotation_is_matched_witness :
  search genTagRe (("//" +:+ nl +:+ " +k8s:conversion-gen=false " +:+ nl +:+ nl)
                   +:+ "package v1")
  = Some (["//" +:+ nl +:+ " +k8s:conversion-gen=false " +:+ nl +:+ nl;
           "conversion-gen"; "false"],
          "package v1").
Proof.
  apply (annotation_is_matched _ "conversion-gen" "false" "package v1");
    try done.
  exists (nl +:+ " "), (" " +:+ nl). by split_and!.
Defined.

(** X21. With no tag requested the walk still runs, but the index
    [findGeneratorTags] returns is empty. *)
Theorem no_requested_tags_empty_index (v : Vendorer) (root : string)
    (fs : fsnode) (m : generatorTagsValuesPkgsMap) :
  findGeneratorTags v root ∅ fs = (Some m, None) → m = ∅.
Proof.
  intros [-> _]%findGeneratorTags_Some.
  apply map_empty. intros tag. apply eq_None_not_Some.
  intros Htag%runWalk_tags_requested.
  rewrite lookup_empty in Htag. by destruct Htag.
Qed.

Lemma no_requested_tags_empty_index_witness :
  tagsValuesPkgs (runWalk exampleVendorer "." ∅ exampleTree).2 = ∅.
Proof.
  apply (no_requested_tags_empty_index exampleVendorer "." exampleTree).
  vm_compute. reflexivity.
Defined.

(** ** What a walk without skips and errors amounts to *)

Lemma walkFn_not_read (v : Vendorer) (requestedTags : gmap string bool)
    path info st :
  skipped v (filepath.Dir path) = false → isSource path = false →
  walkFn v requestedTags path info None st = (None, st).
Proof.
  unfold walkFn, skipped, isSource. intros -> Hsrc.
  destruct (strings.HasSuffix path ".go"); [|done].
  simpl in Hsrc. apply negb_false_iff in Hsrc. by rewrite Hsrc.
Qed.

(** X20. On a tree where nothing stops or cuts short the walk, the walk
    returns no error, reads exactly the non-test Go sources in the order
    of the listing, and builds the index by adding, source after source,
    the tags of each under its directory. *)
Theorem walk_scans_sources (v : Vendorer) (requestedTags : gmap string bool)
    (fs : fsnode) :
  ∀ (path : string) (st : walkState),
    walkable v path fs = true →
    filepath.walk (walkFn v requestedTags) path fs st
    = (None, foldl (scan requestedTags) st (sources path fs)).
Proof.
  induction fs as [errno|contents|readdirErr entries IH] using fsnode_tree_ind;
    intros path st; cbn [walkable].
  - by rewrite andb_false_r.
  - intros [Hskip Hfile]%andb_true_iff. apply negb_true_iff in Hskip.
    rewrite walk_not_Directory by done.
    destruct contents as [e|b].
    + apply negb_true_iff in Hfile. by rewrite walkFn_not_read.
    + cbn [sources]. destruct (isSource path) eqn:Hsrc.
      * unfold isSource in Hsrc. apply andb_true_iff in Hsrc as [Hgo Htest].
        apply negb_true_iff in Htest. by rewrite walkFn_read.
      * by rewrite walkFn_not_read.
  - intros [Hskip Hdir]%andb_true_iff. apply negb_true_iff in Hskip.
    destruct readdirErr as [e|]; [done|].
    apply andb_true_iff in Hdir as [Hsrc Hentries]. apply negb_true_iff in Hsrc.
    rewrite walk_Directory. change (PathError <$> None) with (@None error).
    rewrite walkFn_not_read by done. cbn [sources].
    revert st Hentries.
    induction IH as [|[name child] entries Hchild _ IHentries];
      intros st Hentries; [done|].
    cbn [forallb] in Hentries.
    apply andb_true_iff in Hentries as [Hwalkable Hentries].
    cbn [filepath.walkEntries flat_map]. rewrite foldl_app.
    simpl in Hchild. specialize (Hchild _ st Hwalkable).
    destruct child as [errno| |].
    + cbn [walkable] in Hwalkable. by rewrite andb_false_r in Hwalkable.
    + rewrite Hchild. by apply IHentries.
    + rewrite Hchild. by apply IHentries.
Qed.

Lemma walk_scans_sources_witness :
  let v := {| cfg := cfg exampleVendorer; dryRun := false;
              skippedK8sCodegenPaths := [] |} in
  filepath.walk (walkFn v {[ "client-gen" := true ]}) "." exampleTree emptyState
  = (None, foldl (scan {[ "client-gen" := true ]}) emptyState
             (sources "." exampleTree)).
Proof.
  intros v. apply walk_scans_sources. reflexivity.
Defined.
